(** * google-https-dns: the bootstrap of [main.go], its listeners, and the
      query handler

    The development follows [main.go]:
    - [Section Bootstrap] embeds [main] and the [Action] closure that the
      command-line library runs on the parsed flags, as a small monad over
      the package-level variables of the file plus a log of observable
      events, with early process exit;
    - [Module Serve] embeds the goroutines of [serve] and the spawn and wait
      loops of [main] as a labelled transition system over unbuffered
      channels;
    - [Module Gdns] models the query path of the [gdns] package, which
      [main.go] only imports. *)

From stdpp Require Import base list strings.
From Stdlib Require Import ZArith Lia Ascii.

Local Open Scope string_scope.
Local Open Scope list_scope.
Local Open Scope Z_scope.

(** ** Values shared by all parts *)

(** Go's [(value, error)] results. *)
Inductive result (E A : Type) : Type :=
| Ok (a : A)
| Error (e : E).
Arguments Ok {E A} a.
Arguments Error {E A} e.

(** The verbosity levels used with [glog.V]; [main.go] uses the three
    constants [LINFO], [LERROR] and [LDEBUG]. *)
Inductive Level : Type := LINFO | LERROR | LDEBUG.

(** The parsed command line, [*cli.Context]: one field per flag declared in
    [app.Flags].  A [cli.BoolFlag] is [false] when absent, a
    [cli.StringSliceFlag] is empty when absent, and a [cli.StringFlag]
    holds its [Value] default when absent. *)
Record Context : Type := {
  flag_listen : string;             (* c.String("listen") *)
  flag_proxy : string;              (* c.String("proxy") *)
  flag_endpoint : string;           (* c.String("endpoint") *)
  flag_endpoint_ips : list string;  (* c.StringSlice("endpoint-ips") *)
  flag_dns_servers : list string;   (* c.StringSlice("dns-servers") *)
  flag_edns : string;               (* c.String("edns") *)
  flag_no_pad : bool;               (* c.Bool("no-pad") *)
  flag_insecure : bool;             (* c.Bool("insecure") *)
  flag_udp : bool;                  (* c.Bool("udp") *)
  flag_tcp : bool                   (* c.Bool("tcp") *)
}.

(** The context of a command line without any flag: the declared defaults. *)
Definition no_flags : Context := {|
  flag_listen := ":5300";
  flag_proxy := "";
  flag_endpoint := "https://dns.google.com/resolve";
  flag_endpoint_ips := [];
  flag_dns_servers := [];
  flag_edns := "";
  flag_no_pad := false;
  flag_insecure := false;
  flag_udp := false;
  flag_tcp := false
|}.

(** How a piece of [main] ends: it returns, or it ends the process. *)
Inductive Outcome (A : Type) : Type :=
| Return (a : A)
| Exit (status : Z).   (* os.Exit(status): nothing after it runs *)
Arguments Return {A} a.
Arguments Exit {A} status.

(** ** The bootstrap: [Action] and [main] *)

Section Bootstrap.

(** Types and functions of the imported packages.  [main.go] uses them
    only through these signatures. *)
Context {IP Endpoint Provider Err : Type}.

(** [net.ParseIP]: [nil] is [None]. *)
Variable ParseIP : string → option IP.
(** [gdns.ParseEndpoint(s, defaultPort)]. *)
Variable ParseEndpoint : string → Z → result Err Endpoint.

(** [gdns.GDNSOptions], with the six fields [main.go] assigns. *)
Record GDNSOptions : Type := {
  PROXY : string;
  EDNS : string;
  Pad : bool;
  Secure : bool;
  EndpointIPs : list IP;
  DNSServers : list Endpoint
}.

(** [gdns.NewGDNSProvider(endpoint, &opts)]. *)
Variable NewGDNSProvider : string → GDNSOptions → result Err Provider.

(** What a log line carries. *)
Inductive LogMsg : Type :=
| UnableToParseIP (eip : string)      (* fmt.Errorf("unable to parse IP from string %s", eip) *)
| ErrorValue (e : Err)                (* "%+v", err *)
| ShowEndpointIPs (ips : list IP)     (* "EndpointIPs%+v" *)
| ShowDNSServers (ds : list Endpoint) (* "DNSServers%+v" *).

(** What the process does that is visible from outside, in order. *)
Inductive Event : Type :=
| Log (lvl : Level) (m : LogMsg)              (* glog.V(lvl).Infof *)
| ShowAppHelp                                 (* cli.ShowAppHelp(c) *)
| Fatal (e : Err)                             (* the log line of glog.Exitln *)
| NewProvider (endpoint : string) (opt : GDNSOptions)
                                              (* the call gdns.NewGDNSProvider(gdnsEndPT, &gdnsOPT) *)
| HandleFunc (pattern : string) (p : Provider) (* dns.HandleFunc(".", handler.Handle) *)
| GoServe (protocol addr : string)            (* go func(protocol) { serve(protocol, listenAddress) ... } *).

(** The package-level variables of [main.go] and the events so far. *)
Record Process : Type := {
  gdnsOPT : GDNSOptions;
  gdnsEndPT : string;
  listenAddress : string;
  listenProtocols : list string;
  events : list Event
}.

(** Go zero values: the state in which [main] starts. *)
Definition zero_options : GDNSOptions :=
  {| PROXY := ""; EDNS := ""; Pad := false; Secure := false;
     EndpointIPs := []; DNSServers := [] |}.

Definition process_start : Process :=
  {| gdnsOPT := zero_options; gdnsEndPT := ""; listenAddress := "";
     listenProtocols := []; events := [] |}.

(** *** The monad: state, and exit of the whole process *)

Definition M (A : Type) : Type := Process → Outcome A * Process.

#[local] Instance M_ret : MRet M := λ A a p, (Return a, p).

#[local] Instance M_bind : MBind M := λ A B k m p,
  match m p with
  | (Return a, p') => k a p'
  | (Exit st, p') => (Exit st, p')
  end.

Definition get : M Process := λ p, (Return p, p).
Definition emit (e : Event) : M unit :=
  λ p, (Return tt,
        {| gdnsOPT := gdnsOPT p; gdnsEndPT := gdnsEndPT p;
           listenAddress := listenAddress p;
           listenProtocols := listenProtocols p;
           events := events p ++ [e] |}).
Definition os_Exit {A} (status : Z) : M A := λ p, (Exit status, p).

Definition set_gdnsOPT (f : GDNSOptions → GDNSOptions) : M unit :=
  λ p, (Return tt,
        {| gdnsOPT := f (gdnsOPT p); gdnsEndPT := gdnsEndPT p;
           listenAddress := listenAddress p;
           listenProtocols := listenProtocols p;
           events := events p |}).
Definition set_gdnsEndPT (s : string) : M unit :=
  λ p, (Return tt,
        {| gdnsOPT := gdnsOPT p; gdnsEndPT := s;
           listenAddress := listenAddress p;
           listenProtocols := listenProtocols p;
           events := events p |}).
Definition set_listenAddress (s : string) : M unit :=
  λ p, (Return tt,
        {| gdnsOPT := gdnsOPT p; gdnsEndPT := gdnsEndPT p;
           listenAddress := s;
           listenProtocols := listenProtocols p;
           events := events p |}).
Definition set_listenProtocols (f : list string → list string) : M unit :=
  λ p, (Return tt,
        {| gdnsOPT := gdnsOPT p; gdnsEndPT := gdnsEndPT p;
           listenAddress := listenAddress p;
           listenProtocols := f (listenProtocols p);
           events := events p |}).

(** [if b { m }] *)
Definition when (b : bool) (m : M unit) : M unit :=
  if b then m else mret tt.

(** [for _, x := range xs { body x }] *)
Fixpoint range {A} (xs : list A) (body : A → M unit) : M unit :=
  match xs with
  | [] => mret tt
  | x :: xs' => body x ;; range xs' body
  end.

(** The field assignments of [Action]. *)
Definition with_PROXY (s : string) (o : GDNSOptions) : GDNSOptions :=
  {| PROXY := s; EDNS := EDNS o; Pad := Pad o; Secure := Secure o;
     EndpointIPs := EndpointIPs o; DNSServers := DNSServers o |}.
Definition with_EDNS (s : string) (o : GDNSOptions) : GDNSOptions :=
  {| PROXY := PROXY o; EDNS := s; Pad := Pad o; Secure := Secure o;
     EndpointIPs := EndpointIPs o; DNSServers := DNSServers o |}.
Definition with_Pad (b : bool) (o : GDNSOptions) : GDNSOptions :=
  {| PROXY := PROXY o; EDNS := EDNS o; Pad := b; Secure := Secure o;
     EndpointIPs := EndpointIPs o; DNSServers := DNSServers o |}.
Definition with_Secure (b : bool) (o : GDNSOptions) : GDNSOptions :=
  {| PROXY := PROXY o; EDNS := EDNS o; Pad := Pad o; Secure := b;
     EndpointIPs := EndpointIPs o; DNSServers := DNSServers o |}.
Definition append_EndpointIPs (ip : IP) (o : GDNSOptions) : GDNSOptions :=
  {| PROXY := PROXY o; EDNS := EDNS o; Pad := Pad o; Secure := Secure o;
     EndpointIPs := EndpointIPs o ++ [ip]; DNSServers := DNSServers o |}.
Definition append_DNSServers (d : Endpoint) (o : GDNSOptions) : GDNSOptions :=
  {| PROXY := PROXY o; EDNS := EDNS o; Pad := Pad o; Secure := Secure o;
     EndpointIPs := EndpointIPs o; DNSServers := DNSServers o ++ [d] |}.

(** *** [app.Action]

    [glogGangstaShim(c)], the first statement, is declared in another
    file of the package and sets up logging from the flags of the context;
    it is taken to leave the variables of [main.go] alone and has no
    counterpart here. *)
Definition Action (c : Context) : M unit :=
  set_listenAddress (flag_listen c) ;;
  set_gdnsEndPT (flag_endpoint c) ;;
  when (flag_tcp c) (set_listenProtocols (λ l, l ++ ["tcp"])) ;;
  when (flag_udp c) (set_listenProtocols (λ l, l ++ ["udp"])) ;;
  p ← get ;
  when (Nat.eqb 0 (length (listenProtocols p)))
       (emit ShowAppHelp ;; os_Exit 0) ;;
  set_gdnsOPT (with_PROXY (flag_proxy c)) ;;
  set_gdnsOPT (with_EDNS (flag_edns c)) ;;
  set_gdnsOPT (with_Pad (negb (flag_no_pad c))) ;;
  set_gdnsOPT (with_Secure (negb (flag_insecure c))) ;;
  range (flag_endpoint_ips c) (λ eip,
    match ParseIP eip with
    | None => emit (Log LERROR (UnableToParseIP eip))
    | Some ip => set_gdnsOPT (append_EndpointIPs ip)
    end) ;;
  p ← get ;
  emit (Log LDEBUG (ShowEndpointIPs (EndpointIPs (gdnsOPT p)))) ;;
  range (flag_dns_servers c) (λ dns,
    match ParseEndpoint dns 53 with
    | Error err => emit (Log LERROR (ErrorValue err))
    | Ok d => set_gdnsOPT (append_DNSServers d)
    end) ;;
  p ← get ;
  emit (Log LDEBUG (ShowDNSServers (DNSServers (gdnsOPT p)))) ;;
  mret tt.

(** *** [main], up to and including the loop that starts the goroutines

    [app.Run(os.Args)] parses the arguments into a context [c] and runs
    [Action] on it; the model takes [c] as its input.  [glog.Exitln] logs
    and calls [os.Exit(1)].  [gdns.NewHandler] wraps the provider; what is
    registered with [dns.HandleFunc] is the handler of that provider.  Each
    [go] statement is recorded as a [GoServe] event; what the goroutines
    and the wait loop then do is the transition system of [Module Serve]
    below. *)
Definition main (c : Context) : M unit :=
  Action c ;;
  p ← get ;
  emit (NewProvider (gdnsEndPT p) (gdnsOPT p)) ;;
  match NewGDNSProvider (gdnsEndPT p) (gdnsOPT p) with
  | Error err => emit (Fatal err) ;; os_Exit 1
  | Ok provider =>
      emit (HandleFunc "." provider) ;;
      p ← get ;
      range (listenProtocols p) (λ protocol,
        p ← get ;
        emit (GoServe protocol (listenAddress p)))
  end.

(** Running the program from process start. *)
Definition run_main (c : Context) : Outcome unit * Process :=
  main c process_start.

(** *** What a run of [main] shows *)

(** A listener was started: some [go] statement of the spawn loop ran. *)
Definition is_GoServe (e : Event) : bool :=
  match e with GoServe _ _ => true | _ => false end.

Definition is_NewProvider (e : Event) : bool :=
  match e with NewProvider _ _ => true | _ => false end.

(** The provider constructions of a run. *)
Definition constructions (p : Process) : list Event :=
  filter (λ e, is_NewProvider e = true) (events p).

(** The goroutines started, in order. *)
Definition started (p : Process) : list Event :=
  filter (λ e, is_GoServe e = true) (events p).

(** The process ended with [status] and never started a listener. *)
Definition exits_before_listening (r : Outcome unit * Process)
    (status : Z) : Prop :=
  r.1 = Exit status ∧ started r.2 = [].

(** The enabled transports, in the order [Action] appends them. *)
Definition protocols_of (c : Context) : list string :=
  (if flag_tcp c then ["tcp"] else []) ++
  (if flag_udp c then ["udp"] else []).

(** The entries of [endpoint-ips] that parse, in order. *)
Definition parsed_ips (c : Context) : list IP :=
  omap ParseIP (flag_endpoint_ips c).

(** The entries of [dns-servers] that parse, in order. *)
Definition parsed_servers (c : Context) : list Endpoint :=
  omap (λ dns, match ParseEndpoint dns 53 with
               | Ok d => Some d
               | Error _ => None
               end) (flag_dns_servers c).

(** Some static address of the command line does not parse. *)
Definition has_unparsable_address (c : Context) : Prop :=
  (∃ eip, eip ∈ flag_endpoint_ips c ∧ ParseIP eip = None) ∨
  (∃ dns err, dns ∈ flag_dns_servers c ∧ ParseEndpoint dns 53 = Error err).

(** The log lines of the two parsing loops. *)
Definition ip_errors (eips : list string) : list Event :=
  omap (λ eip, match ParseIP eip with
               | None => Some (Log LERROR (UnableToParseIP eip))
               | Some _ => None
               end) eips.

Definition server_errors (servers : list string) : list Event :=
  omap (λ dns, match ParseEndpoint dns 53 with
               | Error err => Some (Log LERROR (ErrorValue err))
               | Ok _ => None
               end) servers.

(** The options [Action] leaves in [gdnsOPT]. *)
Definition options_of (c : Context) : GDNSOptions :=
  {| PROXY := flag_proxy c; EDNS := flag_edns c;
     Pad := negb (flag_no_pad c); Secure := negb (flag_insecure c);
     EndpointIPs := parsed_ips c; DNSServers := parsed_servers c |}.

(** The events of [Action] when it returns. *)
Definition action_events (c : Context) : list Event :=
  ip_errors (flag_endpoint_ips c)
  ++ [Log LDEBUG (ShowEndpointIPs (parsed_ips c))]
  ++ server_errors (flag_dns_servers c)
  ++ [Log LDEBUG (ShowDNSServers (parsed_servers c))].

(** The state in which [Action] returns, followed by the events [es]. *)
Definition configured (c : Context) (es : list Event) : Process :=
  {| gdnsOPT := options_of c; gdnsEndPT := flag_endpoint c;
     listenAddress := flag_listen c;
     listenProtocols := protocols_of c;
     events := action_events c ++ es |}.

(** The state in which [Action] ends the process after the help text. *)
Definition help_shown (c : Context) : Process :=
  {| gdnsOPT := zero_options; gdnsEndPT := flag_endpoint c;
     listenAddress := flag_listen c;
     listenProtocols := [];
     events := [ShowAppHelp] |}.

(** The [go] statements of the spawn loop for the enabled transports. *)
Definition go_statements (c : Context) : list Event :=
  map (λ protocol, GoServe protocol (flag_listen c)) (protocols_of c).

End Bootstrap.

(** ** The listeners: [serve] and the spawn and wait loops of [main]

    Every goroutine is a program counter; a step of the system is one
    statement of one goroutine, or a rendezvous on an unbuffered channel
    ([make(chan os.Signal)], [make(chan bool)]), or something the
    environment does (a signal of the operating system, the return of
    [ListenAndServe] or of [Shutdown]).  The steps are labelled, and the
    step function is executable: a schedule is a list of labels. *)
Module Serve.

(** The two signals [serve] registers with [signal.Notify]. *)
Inductive Signal : Type := SIGINT | SIGTERM.

(** Where the goroutine [go func(protocol) { serve(protocol, listenAddress);
    servers <- true }(protocol)] stands. *)
Inductive ServePC : Type :=
| SEntry                   (* started; next: log, make(chan), signal.Notify, &dns.Server{...} *)
| SNotified                (* next: go func() { server.ListenAndServe() ... }() *)
| SSpawned                 (* next: the receive <-sig *)
| SWaiting                 (* blocked in <-sig: "serve until exit" *)
| SGotSignal (s : Signal)  (* received s; next: log, server.Shutdown() *)
| SShutdownDone            (* serve returned; blocked in servers <- true *)
| SFinished.               (* the send was taken by main; goroutine over *)

(** Where the goroutine [go func() { if err := server.ListenAndServe();
    err != nil { glog.Errorf(...); sig <- syscall.SIGTERM } }()] stands. *)
Inductive ListenPC : Type :=
| LNone        (* not started yet *)
| LListening   (* inside server.ListenAndServe() *)
| LFailed      (* ListenAndServe returned an error, logged; blocked in sig <- SIGTERM *)
| LReturned.   (* goroutine over: ListenAndServe returned nil, or the send was taken *)

(** One call of [serve]: its arguments, its two goroutines, and how often
    [server.Shutdown()] has been called on its server. *)
Record Listener : Type := {
  net : string;
  addr : string;
  spc : ServePC;
  lpc : ListenPC;
  shutdowns : nat
}.

(** The whole process after the provider is set up: the package-level
    variables ([gdnsOPT] at the type of the options record) and the
    goroutines.  [listeners] holds one entry per executed [go] statement
    of the spawn loop, in order, so its length is the position of that
    loop; [received] counts the completed [<-servers] of the wait loop;
    [returned] says that [main] has returned. *)
Record State {Options : Type} : Type := {
  gdnsOPT : Options;
  listenProtocols : list string;
  listenAddress : string;
  listeners : list Listener;
  received : nat;
  returned : bool
}.
Arguments State Options : clear implicits.

(** The steps, with the lines of [main.go] they stand for.  [i] is the
    position of a protocol in [listenProtocols]. *)
Inductive Label : Type :=
| MainGo                   (* main, 161-166: the next go statement of the spawn loop *)
| ServeStart (i : nat)     (* serve i, 29-34: log, make(chan), signal.Notify, &dns.Server{...} *)
| ServeGo (i : nat)        (* serve i, 35-40: go func() { ... ListenAndServe() ... }() *)
| ServeWait (i : nat)      (* serve i, 43: reaches <-sig and blocks *)
| ListenError (i : nat)    (* 36-37: ListenAndServe of i returns an error; glog.Errorf *)
| ListenReturn (i : nat)   (* 36: ListenAndServe of i returns nil *)
| SelfTerm (i : nat)       (* 38 with 43: rendezvous of sig <- SIGTERM with <-sig, both of i *)
| OsSignal (s : Signal)    (* the operating system signals the process *)
| Shutdown (i : nat) (err : bool)
                           (* serve i, 45-48: log, server.Shutdown() returns, with or without error *)
| Done (i : nat)           (* 164 with 170: rendezvous of servers <- true of i with <-servers of main *)
| MainReturn.              (* main, 169-174: wait loop over, last log line, return *)

Definition init {Options} (opt : Options) (protocols : list string)
    (address : string) : State Options :=
  {| gdnsOPT := opt; listenProtocols := protocols;
     listenAddress := address;
     listeners := []; received := 0; returned := false |}.

Definition new_listener (protocol address : string) : Listener :=
  {| net := protocol; addr := address; spc := SEntry; lpc := LNone;
     shutdowns := 0 |}.

Definition set_spc (pc : ServePC) (l : Listener) : Listener :=
  {| net := net l; addr := addr l; spc := pc; lpc := lpc l;
     shutdowns := shutdowns l |}.
Definition set_lpc (pc : ListenPC) (l : Listener) : Listener :=
  {| net := net l; addr := addr l; spc := spc l; lpc := pc;
     shutdowns := shutdowns l |}.
Definition call_shutdown (l : Listener) : Listener :=
  {| net := net l; addr := addr l; spc := SShutdownDone; lpc := lpc l;
     shutdowns := S (shutdowns l) |}.

Definition set_listeners {Options} (ls : list Listener)
    (st : State Options) : State Options :=
  {| gdnsOPT := gdnsOPT st;
     listenProtocols := listenProtocols st;
     listenAddress := listenAddress st;
     listeners := ls; received := received st; returned := returned st |}.

(** One more value taken from [servers]. *)
Definition count_received {Options} (st : State Options) : State Options :=
  {| gdnsOPT := gdnsOPT st;
     listenProtocols := listenProtocols st;
     listenAddress := listenAddress st;
     listeners := listeners st;
     received := S (received st); returned := returned st |}.

(** [main] returns. *)
Definition main_returns {Options} (st : State Options) : State Options :=
  {| gdnsOPT := gdnsOPT st;
     listenProtocols := listenProtocols st;
     listenAddress := listenAddress st;
     listeners := listeners st;
     received := received st; returned := true |}.

#[global] Instance Signal_eq_dec : EqDecision Signal.
Proof. solve_decision. Defined.
#[global] Instance ServePC_eq_dec : EqDecision ServePC.
Proof. solve_decision. Defined.
#[global] Instance ListenPC_eq_dec : EqDecision ListenPC.
Proof. solve_decision. Defined.

(** A step of listener [i] that is enabled when [enabled l] holds. *)
Definition on_listener {Options} (i : nat) (enabled : Listener → bool)
    (f : Listener → Listener) (st : State Options) : option (State Options) :=
  l ← listeners st !! i;
  if enabled l then Some (set_listeners (<[i := f l]> (listeners st)) st)
  else None.

(** [signal.Notify] relays a signal to the registered channel without
    blocking: a serve loop that is blocked in [<-sig] receives it, and for
    any other the send on the unbuffered [sig] is dropped. *)
Definition deliver (s : Signal) (l : Listener) : Listener :=
  if bool_decide (spc l = SWaiting) then set_spc (SGotSignal s) l else l.

(** The serve call of [l] has run [signal.Notify(sig, SIGINT, SIGTERM)]
    (line 32). *)
Definition notified (l : Listener) : bool :=
  negb (bool_decide (spc l = SEntry)).

(** The runtime relays SIGINT and SIGTERM to channels: some serve call has
    run [signal.Notify].  The registration is for the whole process and is
    never undone ([serve] has no [signal.Stop]).  Before it, either signal
    has its default disposition and ends the process at once. *)
Definition notify_in_force {Options} (st : State Options) : bool :=
  existsb notified (listeners st).

(** All goroutines spawned: the spawn loop is over and main is in the
    wait loop. *)
Definition all_spawned {Options} (st : State Options) : bool :=
  Nat.eqb (length (listeners st)) (length (listenProtocols st)).

(** One step.  [None]: the label cannot be taken in [st], or the process
    is gone: [main] has returned, or a signal arrives with no
    [signal.Notify] in force and ends the process, which has no state
    afterwards. *)
Definition step {Options} (st : State Options) (lb : Label)
    : option (State Options) :=
  if returned st then None      (* main returned: the process is gone *)
  else match lb with
  | MainGo =>
      protocol ← listenProtocols st !! length (listeners st);
      Some (set_listeners
              (listeners st ++ [new_listener protocol (listenAddress st)]) st)
  | ServeStart i =>
      on_listener i (λ l, bool_decide (spc l = SEntry))
                  (set_spc SNotified) st
  | ServeGo i =>
      on_listener i (λ l, bool_decide (spc l = SNotified))
                  (λ l, set_lpc LListening (set_spc SSpawned l)) st
  | ServeWait i =>
      on_listener i (λ l, bool_decide (spc l = SSpawned))
                  (set_spc SWaiting) st
  | ListenError i =>
      on_listener i (λ l, bool_decide (lpc l = LListening))
                  (set_lpc LFailed) st
  | ListenReturn i =>
      on_listener i (λ l, bool_decide (lpc l = LListening))
                  (set_lpc LReturned) st
  | SelfTerm i =>
      on_listener i (λ l, bool_decide (lpc l = LFailed)
                          && bool_decide (spc l = SWaiting))
                  (λ l, set_lpc LReturned (set_spc (SGotSignal SIGTERM) l)) st
  | OsSignal s =>
      if notify_in_force st
      then Some (set_listeners (deliver s <$> listeners st) st)
      else None                 (* default disposition: the process ends *)
  | Shutdown i err =>
      on_listener i (λ l, match spc l with SGotSignal _ => true | _ => false end)
                  call_shutdown st
  | Done i =>
      if all_spawned st && Nat.ltb (received st) (length (listenProtocols st))
      then
        count_received <$>
          on_listener i (λ l, bool_decide (spc l = SShutdownDone))
                      (set_spc SFinished) st
      else None
  | MainReturn =>
      if all_spawned st
         && Nat.eqb (received st) (length (listenProtocols st))
      then Some (main_returns st)
      else None
  end.

(** Running a schedule. *)
Fixpoint run {Options} (st : State Options) (schedule : list Label)
    : option (State Options) :=
  match schedule with
  | [] => Some st
  | lb :: rest => st' ← step st lb; run st' rest
  end.

(** The states the process can be in. *)
Definition reachable {Options} (opt : Options) (protocols : list string)
    (address : string) (st : State Options) : Prop :=
  ∃ schedule, run (init opt protocols address) schedule = Some st.

(** The serve loop of [l] has taken a signal from [sig]. *)
Definition signalled (l : Listener) : bool :=
  match spc l with
  | SGotSignal _ | SShutdownDone | SFinished => true
  | _ => false
  end.

(** The goroutine of [l] is over. *)
Definition finished (l : Listener) : bool :=
  bool_decide (spc l = SFinished).

(** The steps that remain once signals have arrived: [Shutdown],
    [Done] and [MainReturn]. *)
Definition winding_down (lb : Label) : bool :=
  match lb with
  | Shutdown _ _ | Done _ | MainReturn => true
  | _ => false
  end.

Definition is_Done (lb : Label) : bool :=
  match lb with Done _ => true | _ => false end.

(** The completion notifications of a schedule. *)
Definition notifications (schedule : list Label) : nat :=
  length (filter (λ lb, is_Done lb = true) schedule).

(** The goroutines that are over. *)
Definition count_finished (ls : list Listener) : nat :=
  length (filter (λ l, finished l = true) ls).

(** What is left to do for a listener whose serve loop has a signal,
    when its position in the spawn loop is [i]. *)
Definition finish_listener (i : nat) (l : Listener) : list Label :=
  match spc l with
  | SGotSignal _ => [Shutdown i false; Done i]
  | SShutdownDone => [Done i]
  | _ => []
  end.

(** A schedule that lets the listeners from position [i] on finish. *)
Fixpoint finish_from (i : nat) (ls : list Listener) : list Label :=
  match ls with
  | [] => []
  | l :: ls' => finish_listener i l ++ finish_from (S i) ls'
  end.

(** A schedule that ends the process once every serve loop has its
    signal. *)
Definition wind_down {Options} (st : State Options) : list Label :=
  finish_from 0 (listeners st) ++ [MainReturn].

(** The wait loop is running and has counted the goroutines that are
    over. *)
Definition waiting {Options} (st : State Options) : Prop :=
  all_spawned st = true ∧ returned st = false
  ∧ received st = count_finished (listeners st).

(** The steps from a failed [ListenAndServe] of listener [i], whose serve
    loop has or has not yet reached [<-sig], to the return of [serve]. *)
Definition failure_path (i : nat) (l : Listener) (err : bool) : list Label :=
  [ListenError i]
  ++ (if bool_decide (spc l = SSpawned) then [ServeWait i] else [])
  ++ [SelfTerm i; Shutdown i err].

(** How the two goroutines of one [serve] call and the calls of
    [Shutdown] go together. *)
Definition listener_ok (l : Listener) : Prop :=
  match spc l with
  | SEntry | SNotified => lpc l = LNone ∧ shutdowns l = 0%nat
  | SSpawned | SWaiting | SGotSignal _ => lpc l ≠ LNone ∧ shutdowns l = 0%nat
  | SShutdownDone | SFinished => lpc l ≠ LNone ∧ shutdowns l = 1%nat
  end.

(** What holds in every state of the process. *)
Record invariant {Options} (opt : Options) (protocols : list string)
    (address : string) (st : State Options) : Prop := {
  inv_gdnsOPT : gdnsOPT st = opt;
  inv_protocols : listenProtocols st = protocols;
  inv_address : listenAddress st = address;
  inv_spawned : (length (listeners st) ≤ length protocols)%nat;
  inv_listener : ∀ i l, listeners st !! i = Some l →
    protocols !! i = Some (net l) ∧ addr l = address ∧ listener_ok l;
  inv_received : received st = count_finished (listeners st);
  inv_returned : returned st = true →
    length (listeners st) = length protocols
    ∧ received st = length protocols
}.

End Serve.

(** The state in which the spawn loop of [main] begins: the package-level
    variables as the bootstrap left them, and no goroutine yet. *)
Definition spawning {IP Endpoint Provider Err : Type}
    (p : @Process IP Endpoint Provider Err)
    : Serve.State (@GDNSOptions IP Endpoint) :=
  Serve.init (gdnsOPT p) (listenProtocols p) (listenAddress p).

(** ** The query path of package [gdns]

    [main.go] imports the provider and the handler from package [gdns] and
    only wires them together ([gdns.NewGDNSProvider], [gdns.NewHandler],
    [handler.Handle]); their code is not part of [main.go].  The
    definitions of this module are therefore written from the design
    document of the package: its data model, the contracts of its
    components and the state machine of the handler. *)
Module Gdns.

(** Modelled from the spec: the question of a DNS message, name, type and
    class (the message types of package [gdns] are missing). *)
Record Question : Type := {
  Name : string;
  Qtype : Z;
  Qclass : Z
}.

(** Modelled from the spec: the "client transport (UDP/TCP)" of an inbound
    query (the listener types of package [gdns] are missing). *)
Inductive ClientTransport : Type := UDP | TCP.

(** Modelled from the spec: "InboundQuery: transaction ID, question
    name/type/class, EDNS0 buffer size and DO-bit, client transport".  The
    question section is a list, since the handler has to check that a
    message carries exactly one question. *)
Record InboundQuery : Type := {
  TransactionID : Z;
  Questions : list Question;
  BufferSize : Z;
  DO : bool;
  Transport : ClientTransport
}.

(** Modelled from the spec: a resource record, "name, type, class, TTL,
    RDATA". *)
Record ResourceRecord : Type := {
  rr_name : string;
  rr_type : Z;
  rr_class : Z;
  rr_ttl : Z;
  rr_data : string
}.

(** Modelled from the spec: "UpstreamAnswer: parsed set of resource
    records plus response code and flags reported by the DoH service". *)
Record UpstreamAnswer : Type := {
  ua_rcode : Z;
  ua_flags : Z;
  ua_records : list ResourceRecord
}.

(** Modelled from the spec: "OutboundResponse: DNS message assembled from
    InboundQuery identity + UpstreamAnswer (or a synthesized SERVFAIL)". *)
Record OutboundResponse : Type := {
  out_TransactionID : Z;
  out_Questions : list Question;
  out_rcode : Z;
  out_flags : Z;
  out_records : list ResourceRecord
}.

(** Modelled from the spec: the per-query errors a provider surfaces. *)
Inductive ProviderError : Type :=
| EndpointUnresolvable
| TransportFailure
| MalformedUpstreamResponse.

(** Modelled from the spec: the states of the handler for one request,
    "Received -> Resolving -> {Answered | Failed}". *)
Inductive HandlerState : Type := Received | Resolving | Answered | Failed.

(** Modelled from the spec: "SERVFAIL: DNS response code indicating the
    resolver could not complete the query"; its number in the DNS wire
    protocol is 2 (the constants of the DNS codec are missing). *)
Definition SERVFAIL : Z := 2.

(** Modelled from the spec: the synthesized failure response, "response-code
    SERVFAIL, echoing the original transaction ID and question". *)
Definition servfail (q : InboundQuery) : OutboundResponse :=
  {| out_TransactionID := TransactionID q;
     out_Questions := Questions q;
     out_rcode := SERVFAIL;
     out_flags := 0;
     out_records := [] |}.

(** Modelled from the spec: the response "assembled from InboundQuery
    identity + UpstreamAnswer", "whose transaction ID, question section,
    and flags mirror the original request". *)
Definition assemble (q : InboundQuery) (a : UpstreamAnswer) : OutboundResponse :=
  {| out_TransactionID := TransactionID q;
     out_Questions := Questions q;
     out_rcode := ua_rcode a;
     out_flags := ua_flags a;
     out_records := ua_records a |}.

Section Engine.

(** The leaves of the engine are the network and the two wire formats;
    they are parameters with the contracts of the design document. *)
Context {IP EncodedRequest Bytes : Type}.

(** ProviderConfig: the fixed endpoint address set, empty when absent. *)
Variable static_ips : list IP.
(** The DNS lookup of the endpoint host name: [None] when all servers
    fail, otherwise the addresses returned. *)
Variable lookup : option (list IP).
(** 4.2: [encode(InboundQuery, ProviderConfig) -> EncodedRequest]. *)
Variable encode : InboundQuery → EncodedRequest.
(** 4.3: one HTTPS exchange with one address; [None] is
    [Error(TransportFailure)]. *)
Variable send : EncodedRequest → IP → option Bytes.
(** The time one exchange takes, bounded by the request timeout. *)
Variable duration : EncodedRequest → IP → nat.
(** 4.4: [decode(raw bytes, InboundQuery)]; [None] is
    [Error(MalformedUpstreamResponse)]. *)
Variable decode : Bytes → InboundQuery → option UpstreamAnswer.
(** 4.6: the overall deadline of one request. *)
Variable deadline : nat.

(** Modelled from the spec: the Endpoint Resolver of 4.1 (package
    [gdns] is missing).  A static list is returned verbatim; otherwise
    the cached set, and when there is none, one lookup whose addresses
    are cached; no address is [EndpointUnresolvable]. *)
Definition resolve_endpoint (cache : option (list IP))
    : result ProviderError (list IP) * option (list IP) :=
  match static_ips with
  | _ :: _ => (Ok static_ips, cache)
  | [] =>
      match cache with
      | Some ips => (Ok ips, cache)
      | None =>
          match lookup with
          | Some (ip :: ips) => (Ok (ip :: ips), Some (ip :: ips))
          | _ => (Error EndpointUnresolvable, None)
          end
      end
  end.

(** Modelled from the spec: the retry policy of 4.5 (package [gdns] is
    missing): "retries against the next address, up to the size of the
    address set, stopping at first success".  The second component is
    the time spent. *)
Fixpoint try_addresses (req : EncodedRequest) (addrs : list IP)
    : option Bytes * nat :=
  match addrs with
  | [] => (None, 0%nat)
  | a :: rest =>
      match send req a with
      | Some raw => (Some raw, duration req a)
      | None =>
          let '(r, t) := try_addresses req rest in
          (r, (duration req a + t)%nat)
      end
  end.

(** Modelled from the spec: [Provider.resolve] of 4.5 (package [gdns] is
    missing): resolver, encoder, transport over the addresses, decoder,
    in sequence.  A malformed answer is not retried.  The result comes
    with the time spent and the address cache. *)
Definition provider_resolve (q : InboundQuery) (cache : option (list IP))
    : result ProviderError OutboundResponse * nat * option (list IP) :=
  match resolve_endpoint cache with
  | (Error e, cache') => (Error e, 0%nat, cache')
  | (Ok addrs, cache') =>
      let req := encode q in
      match try_addresses req addrs with
      | (None, t) => (Error TransportFailure, t, cache')
      | (Some raw, t) =>
          match decode raw q with
          | None => (Error MalformedUpstreamResponse, t, cache')
          | Some a => (Ok (assemble q a), t, cache')
          end
      end
  end.

(** Modelled from the spec: "deadline expiry" of 4.6 (package [gdns] is
    missing): the time [t] spent exceeds the deadline of the handler. *)
Definition expired (t : nat) : bool := Nat.ltb deadline t.

(** Modelled from the spec: the Handler of 4.6 (package [gdns] is
    missing).  A message without exactly one question is malformed and
    answered with SERVFAIL without a call of the provider; a provider
    error or an expired deadline is answered with SERVFAIL; otherwise
    the response of the provider is written.  The result is the
    response written to the client, the final state, and the cache. *)
Definition Handle (q : InboundQuery) (cache : option (list IP))
    : OutboundResponse * HandlerState * option (list IP) :=
  match Questions q with
  | [_] =>
      match provider_resolve q cache with
      | (Ok r, t, cache') =>
          if expired t then (servfail q, Failed, cache')
          else (r, Answered, cache')
      | (Error _, _, cache') => (servfail q, Failed, cache')
      end
  | _ => (servfail q, Failed, cache)
  end.

(** Modelled from the spec: what the handler of 4.6 writes back to the
    client (package [gdns] is missing). *)
Definition written (q : InboundQuery) (cache : option (list IP))
    : OutboundResponse :=
  (Handle q cache).1.1.

End Engine.

End Gdns.

(** ** A concrete instance of the imported functions

    The theorems about [main] hold for every [ParseIP], [ParseEndpoint] and
    [NewGDNSProvider].  To run [main] on a concrete command line the
    functions must be instantiated; this module does so with simple,
    executable stand-ins. *)
Module Sample.

Definition IP : Type := list Z.
Definition Endpoint : Type := IP * Z.
Definition Err : Type := string.

(** A decimal digit. *)
Definition digit (a : ascii) : option Z :=
  let n := Z.of_nat (nat_of_ascii a) in
  if (48 <=? n) && (n <=? 57) then Some (n - 48) else None.

(** A non-empty decimal field with value at most 255. *)
Fixpoint field (s : string) (acc : option Z) : option Z :=
  match s with
  | EmptyString => acc
  | String a rest =>
      match digit a with
      | None => None
      | Some d =>
          let v := (match acc with Some n => 10 * n | None => 0 end) + d in
          if v <=? 255 then field rest (Some v) else None
      end
  end.

(** The fields of [s] between the separator [sep]. *)
Fixpoint split (sep : ascii) (s : string) (cur : string) : list string :=
  match s with
  | EmptyString => [cur]
  | String a rest =>
      if Ascii.eqb a sep then cur :: split sep rest EmptyString
      else split sep rest (cur +:+ String a EmptyString)
  end.

(** Stand-in for [net.ParseIP] on dotted-decimal IPv4 text: four decimal
    fields; anything else is [nil]. *)
Definition ParseIP (s : string) : option IP :=
  match split "." s EmptyString with
  | [a; b; c; d] =>
      a ← field a None; b ← field b None; c ← field c None;
      d ← field d None; Some [a; b; c; d]
  | _ => None
  end.

(** Stand-in for [gdns.ParseEndpoint]: an IPv4 address with the default
    port. *)
Definition ParseEndpoint (s : string) (defaultPort : Z) : result Err Endpoint :=
  match ParseIP s with
  | Some ip => Ok (ip, defaultPort)
  | None => Error ("unable to parse endpoint " +:+ s)
  end.

(** What the stand-in provider keeps: its endpoint and its options. *)
Record Provider : Type := {
  endpoint : string;
  options : @GDNSOptions IP Endpoint
}.

(** Modelled from the spec: "Construction fails with
    Error(InvalidEndpointURL) if the configured endpoint URL cannot be
    parsed into a usable request template" ([gdns.NewGDNSProvider] is
    missing).  The stand-in accepts the URLs with an http or https
    scheme. *)
Definition NewGDNSProvider (ep : string) (opt : @GDNSOptions IP Endpoint)
    : result Err Provider :=
  if String.prefix "https://" ep || String.prefix "http://" ep
  then Ok {| endpoint := ep; options := opt |}
  else Error "InvalidEndpointURL".

(** [main] on a context, with the stand-ins. *)
Abbreviation run := (run_main ParseIP ParseEndpoint NewGDNSProvider).

(** [--tcp --endpoint-ips bogus --endpoint-ips 8.8.8.8 --dns-servers 8.8.4.4
    --dns-servers nowhere]. *)
Definition tcp_with_bad_ip : Context := {|
  flag_listen := ":5300";
  flag_proxy := "";
  flag_endpoint := "https://dns.google.com/resolve";
  flag_endpoint_ips := ["bogus"; "8.8.8.8"];
  flag_dns_servers := ["8.8.4.4"; "nowhere"];
  flag_edns := "";
  flag_no_pad := false;
  flag_insecure := false;
  flag_udp := false;
  flag_tcp := true
|}.

(** [--tcp --udp --endpoint :]. *)
Definition bad_endpoint : Context := {|
  flag_listen := ":5300";
  flag_proxy := "";
  flag_endpoint := ":";
  flag_endpoint_ips := [];
  flag_dns_servers := [];
  flag_edns := "";
  flag_no_pad := false;
  flag_insecure := false;
  flag_udp := true;
  flag_tcp := true
|}.

(** [--tcp --udp --no-pad --listen 127.0.0.1:53]. *)
Definition both_protocols : Context := {|
  flag_listen := "127.0.0.1:53";
  flag_proxy := "";
  flag_endpoint := "https://dns.google.com/resolve";
  flag_endpoint_ips := ["8.8.8.8"];
  flag_dns_servers := [];
  flag_edns := "";
  flag_no_pad := true;
  flag_insecure := false;
  flag_udp := true;
  flag_tcp := true
|}.

(** A schedule of the process with both transports: both listeners come
    up and serve. *)
Definition both_serving : list Serve.Label :=
  [Serve.MainGo; Serve.ServeStart 0; Serve.MainGo; Serve.ServeStart 1;
   Serve.ServeGo 0; Serve.ServeGo 1; Serve.ServeWait 1; Serve.ServeWait 0].

(** After [both_serving]: SIGINT, both serve loops shut their servers
    down, [main] collects both completions and returns. *)
Definition interrupted : list Serve.Label :=
  both_serving
  ++ [Serve.OsSignal Serve.SIGINT; Serve.Shutdown 1 false;
      Serve.ListenReturn 1; Serve.Shutdown 0 true; Serve.Done 1;
      Serve.Done 0; Serve.MainReturn].

(** The tcp listener is up, its [ListenAndServe] still running, and its
    serve loop has not reached the receive; udp is being started. *)
Definition tcp_spawned : list Serve.Label :=
  [Serve.MainGo; Serve.ServeStart 0; Serve.ServeGo 0; Serve.MainGo;
   Serve.ServeStart 1].

(** A query for the A record of example.com, over UDP. *)
Definition example_query : Gdns.InboundQuery := {|
  Gdns.TransactionID := 4660;
  Gdns.Questions :=
    [{| Gdns.Name := "example.com."; Gdns.Qtype := 1; Gdns.Qclass := 1 |}];
  Gdns.BufferSize := 512;
  Gdns.DO := false;
  Gdns.Transport := Gdns.UDP
|}.

(** An engine whose endpoint has two static addresses; the first does
    not answer, the second returns the bytes ["A"]; one exchange takes
    three units of time; the decoder accepts ["A"] only. *)
Definition two_addresses : list IP := [[8; 8; 8; 8]; [8; 8; 4; 4]].
Definition encode (q : Gdns.InboundQuery) : string :=
  match Gdns.Questions q with
  | [question] => "name=" +:+ Gdns.Name question
  | _ => ""
  end.
Definition send_second (req : string) (a : IP) : option string :=
  if bool_decide (a = [8; 8; 4; 4]) then Some "A" else None.
Definition send_none (req : string) (a : IP) : option string := None.
Definition three_units (req : string) (a : IP) : nat := 3.
Definition decode (raw : string) (q : Gdns.InboundQuery)
    : option Gdns.UpstreamAnswer :=
  if String.eqb raw "A"
  then Some {| Gdns.ua_rcode := 0; Gdns.ua_flags := 0;
               Gdns.ua_records :=
                 [{| Gdns.rr_name := "example.com."; Gdns.rr_type := 1;
                     Gdns.rr_class := 1; Gdns.rr_ttl := 300;
                     Gdns.rr_data := "93.184.216.34" |}] |}
  else None.

End Sample.

(** ** What the log of a run shows *)

Section Observations.

Context {IP Endpoint Provider Err : Type}.

(** The log line of an [endpoint-ips] entry that does not parse. *)
Definition is_ip_error (e : @Event IP Endpoint Provider Err) : bool :=
  match e with Log LERROR (UnableToParseIP _) => true | _ => false end.

(** The log line of a [dns-servers] entry that does not parse. *)
Definition is_server_error (e : @Event IP Endpoint Provider Err) : bool :=
  match e with Log LERROR (ErrorValue _) => true | _ => false end.

Definition is_HandleFunc (e : @Event IP Endpoint Provider Err) : bool :=
  match e with HandleFunc _ _ => true | _ => false end.

(** The error lines of the two parsing loops in a log. *)
Definition ip_error_lines (es : list (@Event IP Endpoint Provider Err))
    : list (@Event IP Endpoint Provider Err) :=
  filter (λ e, is_ip_error e = true) es.

Definition server_error_lines (es : list (@Event IP Endpoint Provider Err))
    : list (@Event IP Endpoint Provider Err) :=
  filter (λ e, is_server_error e = true) es.

(** The registrations of a handler in a log. *)
Definition registrations (es : list (@Event IP Endpoint Provider Err))
    : list (@Event IP Endpoint Provider Err) :=
  filter (λ e, is_HandleFunc e = true) es.

End Observations.

(** ** Schedules and traces of the listeners

    Definitions used to state what the process of [Module Serve] can and
    cannot do over whole runs. *)
Module Plans.
Import Serve.

(** The steps that bring the serve loop of listener [i] to its receive
    [<-sig]. *)
Definition reach_receive (i : nat) (l : Listener) : list Label :=
  match spc l with
  | SEntry => [ServeStart i; ServeGo i; ServeWait i]
  | SNotified => [ServeGo i; ServeWait i]
  | SSpawned => [ServeWait i]
  | _ => []
  end.

(** The listener after these steps. *)
Definition at_receive (l : Listener) : Listener :=
  match spc l with
  | SEntry | SNotified => set_lpc LListening (set_spc SWaiting l)
  | SSpawned => set_spc SWaiting l
  | _ => l
  end.

Fixpoint reach_receive_from (i : nat) (ls : list Listener) : list Label :=
  match ls with
  | [] => []
  | l :: ls' => reach_receive i l ++ reach_receive_from (S i) ls'
  end.

(** The listeners once the spawn loop is through: those there are, and a
    fresh one for every protocol the loop has not reached yet. *)
Definition all_listeners {Options} (st : State Options) : list Listener :=
  listeners st
  ++ ((λ protocol, new_listener protocol (listenAddress st))
        <$> drop (length (listeners st)) (listenProtocols st)).

(** The signal [s], sent when there is a serve loop to take it.  With no
    protocol there is no serve call and no [signal.Notify]: a signal would
    end the process, and [main] returns without one. *)
Definition the_signal (s : Signal) (ls : list Listener) : list Label :=
  match ls with
  | [] => []
  | _ :: _ => [OsSignal s]
  end.

(** A schedule that ends the process from [st] with one signal [s]: the
    spawn loop finishes, every serve loop reaches its receive, the signal
    arrives, the listeners shut down and [main] collects them. *)
Definition shutdown_schedule {Options} (s : Signal) (st : State Options)
    : list Label :=
  replicate (length (listenProtocols st) - length (listeners st)) MainGo
  ++ reach_receive_from 0 (all_listeners st)
  ++ the_signal s (all_listeners st)
  ++ finish_from 0 (deliver s <$> (at_receive <$> all_listeners st))
  ++ [MainReturn].

(** The schedule has a signal of the operating system. *)
Definition signal_sent (schedule : list Label) : Prop :=
  ∃ s, OsSignal s ∈ schedule.

(** What a trace [pre] must hold for the state it leads to: a serve loop
    with a signal got it from the operating system or from its own
    goroutine, and a goroutine sends only after its [ListenAndServe]
    failed. *)
Definition explained {Options} (pre : list Label) (st : State Options)
    : Prop :=
  (∀ i l, listeners st !! i = Some l →
     (signalled l = true → signal_sent pre ∨ SelfTerm i ∈ pre)
     ∧ (lpc l = LFailed → ListenError i ∈ pre))
  ∧ (∀ i, SelfTerm i ∈ pre → ListenError i ∈ pre).

(** The goroutine of [l] is blocked for good: it wants to send SIGTERM on
    [sig], and the serve loop, which alone receives from [sig], is past
    its receive. *)
Definition stuck_sender (l : Listener) : Prop :=
  lpc l = LFailed ∧ signalled l = true.

End Plans.


(** ** More runs of the listeners *)

Module Scenario.

(** One transport: the serve loop waits, [ListenAndServe] fails, and
    SIGINT of the operating system gets to the serve loop before the
    SIGTERM of the goroutine does. *)
Definition failed_then_interrupted : list Serve.Label :=
  [Serve.MainGo; Serve.ServeStart 0; Serve.ServeGo 0; Serve.ServeWait 0;
   Serve.ListenError 0; Serve.OsSignal Serve.SIGINT].

(** The serve loop shuts its server down and [main] returns. *)
Definition exit_after_shutdown : list Serve.Label :=
  [Serve.Shutdown 0 false; Serve.Done 0; Serve.MainReturn].

(** One transport: [serve] has run [signal.Notify] and started the
    goroutine of [ListenAndServe] (lines 32-40), and is not yet at its
    receive (line 43). *)
Definition listening_not_waiting : list Serve.Label :=
  [Serve.MainGo; Serve.ServeStart 0; Serve.ServeGo 0].

(** SIGINT arrives at that moment; then the serve loop reaches its
    receive. *)
Definition signal_while_starting : list Serve.Label :=
  listening_not_waiting ++ [Serve.OsSignal Serve.SIGINT; Serve.ServeWait 0].

End Scenario.

(** * Facts about the listeners *)

Module ServeFacts.
Import Serve.

Section Counting.

Lemma count_finished_app (l1 l2 : list Listener) :
  count_finished (l1 ++ l2) = (count_finished l1 + count_finished l2)%nat.
Proof. unfold count_finished. by rewrite filter_app, length_app. Qed.

Lemma count_finished_cons (l : Listener) (ls : list Listener) :
  count_finished (l :: ls)
  = ((if finished l then 1 else 0) + count_finished ls)%nat.
Proof.
  unfold count_finished. destruct (finished l) eqn:Hl.
  - by rewrite filter_cons_True.
  - rewrite filter_cons_False; [done|]. by rewrite Hl.
Qed.

Lemma count_finished_le (ls : list Listener) :
  (count_finished ls ≤ length ls)%nat.
Proof.
  induction ls as [|l ls IH]; [done|].
  rewrite count_finished_cons. cbn [length]. destruct (finished l); lia.
Qed.

(** When as many goroutines are over as there are, all are. *)
Lemma count_finished_all (ls : list Listener) :
  count_finished ls = length ls →
  ∀ i l, ls !! i = Some l → finished l = true.
Proof.
  induction ls as [|x ls IH]; intros Hc i l Hi; [done|].
  rewrite count_finished_cons in Hc. cbn [length] in Hc.
  pose proof (count_finished_le ls).
  destruct (finished x) eqn:Hx; [|lia].
  destruct i as [|i]; cbn in Hi.
  - by simplify_eq.
  - apply (IH ltac:(lia) i l Hi).
Qed.

Lemma count_finished_insert (ls : list Listener) i l l' :
  ls !! i = Some l →
  (count_finished (<[i:=l']> ls) + (if finished l then 1 else 0)
   = count_finished ls + (if finished l' then 1 else 0))%nat.
Proof.
  revert i. induction ls as [|x ls IH]; intros i Hi; [done|].
  destruct i as [|i]; cbn in Hi.
  - simplify_eq. change (<[0%nat:=l']> (l :: ls)) with (l' :: ls).
    rewrite !count_finished_cons. lia.
  - change (<[S i:=l']> (x :: ls)) with (x :: <[i:=l']> ls).
    rewrite !count_finished_cons. specialize (IH i Hi). lia.
Qed.

Lemma count_finished_deliver (s : Signal) (ls : list Listener) :
  count_finished (deliver s <$> ls) = count_finished ls.
Proof.
  induction ls as [|x ls IH]; [done|].
  rewrite fmap_cons, !count_finished_cons, IH. f_equal.
  unfold deliver, finished.
  destruct (bool_decide (spc x = SWaiting)) eqn:Hw; [|done].
  apply bool_decide_eq_true in Hw. cbn. rewrite Hw.
  by rewrite !bool_decide_eq_false_2.
Qed.

End Counting.

Section Steps.

Context {Options : Type}.
Implicit Types st : State Options.

(** A step of listener [i] happens in its enabling state and changes
    that listener only. *)
Lemma on_listener_Some i enabled f st st' :
  on_listener i enabled f st = Some st' ↔
  ∃ l, listeners st !! i = Some l ∧ enabled l = true
       ∧ st' = set_listeners (<[i := f l]> (listeners st)) st.
Proof.
  unfold on_listener. destruct (listeners st !! i) as [l|]; cbn.
  - destruct (enabled l) eqn:He; split.
    + intros [= <-]. eauto.
    + intros (l' & [= <-] & _ & ->). done.
    + done.
    + intros (l' & [= <-] & ? & _). congruence.
  - split; [done|]. by intros (? & ? & _).
Qed.

(** Nothing happens after [main] has returned. *)
Lemma step_not_returned st lb st' :
  step st lb = Some st' → returned st = false.
Proof. unfold step. by destruct (returned st). Qed.

(** [signal.Notify] is in force once a serve call is past its entry. *)
Lemma notify_in_force_true st :
  notify_in_force st = true ↔
  ∃ i l, listeners st !! i = Some l ∧ spc l ≠ SEntry.
Proof.
  unfold notify_in_force. rewrite existsb_exists. split.
  - intros (l & (i & Hi)%list_elem_of_In%list_elem_of_lookup_1 & Hn).
    exists i, l. split; [done|]. unfold notified in Hn.
    by apply negb_true_iff, bool_decide_eq_false in Hn.
  - intros (i & l & Hi & Hspc). exists l. split.
    + by eapply list_elem_of_In, list_elem_of_lookup_2.
    + unfold notified. by apply negb_true_iff, bool_decide_eq_false.
Qed.

Lemma notify_in_force_false st :
  notify_in_force st = false ↔
  ∀ i l, listeners st !! i = Some l → spc l = SEntry.
Proof.
  split.
  - intros Hn i l Hl. destruct (decide (spc l = SEntry)) as [|Hne]; [done|].
    assert (notify_in_force st = true) by (apply notify_in_force_true; eauto).
    congruence.
  - intros Hall. destruct (notify_in_force st) eqn:Hn; [|done].
    apply notify_in_force_true in Hn as (i & l & Hl & Hne).
    by destruct (Hne (Hall i l Hl)).
Qed.

(** A signal of the operating system is relayed when [signal.Notify] is
    in force, and ends the process otherwise. *)
Lemma step_OsSignal st s st' :
  step st (OsSignal s) = Some st' ↔
  returned st = false ∧ notify_in_force st = true
  ∧ st' = set_listeners (deliver s <$> listeners st) st.
Proof.
  unfold step. destruct (returned st); [by split; [|intros [? _]]|].
  destruct (notify_in_force st); split; try done.
  - by intros [= <-].
  - by intros (_ & _ & ->).
  - by intros (_ & ? & _).
Qed.

(** No step writes one of the package-level variables. *)
Lemma step_globals st lb st' :
  step st lb = Some st' →
  gdnsOPT st' = gdnsOPT st
  ∧ listenProtocols st' = listenProtocols st
  ∧ listenAddress st' = listenAddress st.
Proof.
  unfold step. destruct (returned st); [done|].
  destruct lb; cbn;
    repeat match goal with
    | |- context [if ?b then _ else _] => destruct b; try done
    | |- context [on_listener ?i ?e ?f ?s] =>
        let H := fresh in
        destruct (on_listener i e f s) as [?|] eqn:H; cbn; [|done];
        apply on_listener_Some in H as (? & _ & _ & ->)
    | |- context [listenProtocols ?s !! ?k] =>
        destruct (listenProtocols s !! k); cbn; [|done]
    end; by intros [= <-].
Qed.

Lemma run_globals schedule st st' :
  run st schedule = Some st' →
  gdnsOPT st' = gdnsOPT st
  ∧ listenProtocols st' = listenProtocols st
  ∧ listenAddress st' = listenAddress st.
Proof.
  revert st. induction schedule as [|lb rest IH]; intros st; cbn.
  - by intros [= <-].
  - destruct (step st lb) as [st1|] eqn:Hs; cbn; [|done].
    intros (-> & -> & ->)%IH. by apply step_globals in Hs.
Qed.

(** The steps of [serve] and of its goroutine, when enabled. *)
Lemma step_on_listener st i l lb enabled f :
  (∀ st0, returned st0 = false → step st0 lb = on_listener i enabled f st0) →
  returned st = false → listeners st !! i = Some l → enabled l = true →
  step st lb = Some (set_listeners (<[i := f l]> (listeners st)) st).
Proof.
  intros Hstep Hret Hl He. rewrite Hstep by done.
  apply on_listener_Some. eauto.
Qed.

Lemma step_Shutdown st i l s err :
  returned st = false → listeners st !! i = Some l →
  spc l = SGotSignal s →
  step st (Shutdown i err)
  = Some (set_listeners (<[i := call_shutdown l]> (listeners st)) st).
Proof.
  intros Hret Hl Hspc.
  eapply step_on_listener;
    [intros st0 H0; unfold step; by rewrite H0|done..|].
  cbn beta. by rewrite Hspc.
Qed.

Lemma step_ListenError st i l :
  returned st = false → listeners st !! i = Some l →
  lpc l = LListening →
  step st (ListenError i)
  = Some (set_listeners (<[i := set_lpc LFailed l]> (listeners st)) st).
Proof.
  intros Hret Hl Hlpc.
  eapply step_on_listener;
    [intros st0 H0; unfold step; by rewrite H0|done..|].
  by apply bool_decide_eq_true_2.
Qed.

Lemma step_ServeWait st i l :
  returned st = false → listeners st !! i = Some l →
  spc l = SSpawned →
  step st (ServeWait i)
  = Some (set_listeners (<[i := set_spc SWaiting l]> (listeners st)) st).
Proof.
  intros Hret Hl Hspc.
  eapply step_on_listener;
    [intros st0 H0; unfold step; by rewrite H0|done..|].
  by apply bool_decide_eq_true_2.
Qed.

Lemma step_SelfTerm st i l :
  returned st = false → listeners st !! i = Some l →
  lpc l = LFailed → spc l = SWaiting →
  step st (SelfTerm i)
  = Some (set_listeners
            (<[i := set_lpc LReturned (set_spc (SGotSignal SIGTERM) l)]>
               (listeners st)) st).
Proof.
  intros Hret Hl Hlpc Hspc.
  eapply step_on_listener with
    (f := λ l, set_lpc LReturned (set_spc (SGotSignal SIGTERM) l));
    [intros st0 H0; unfold step; by rewrite H0|done..|].
  cbn beta. by rewrite !bool_decide_eq_true_2.
Qed.

Lemma run_app schedule1 schedule2 st :
  run st (schedule1 ++ schedule2)
  = st' ← run st schedule1; run st' schedule2.
Proof.
  revert st. induction schedule1 as [|lb rest IH]; intros st; [done|].
  cbn. destruct (step st lb); cbn; [apply IH|done].
Qed.

End Steps.

(** Projections of updated states. *)
Ltac state_simpl :=
  cbn [set_listeners count_received main_returns init
       gdnsOPT listenProtocols listenAddress listeners received returned].

Section Invariant.

Context {Options : Type}.
Variables (opt : Options) (protocols : list string) (address : string).
Implicit Types st : State Options.

Abbreviation inv := (invariant opt protocols address).

Lemma invariant_init : inv (init opt protocols address).
Proof. split; cbn; try done; lia. Qed.

(** A step of listener [i] that keeps its arguments and does not end
    its goroutine. *)
Lemma invariant_update st i l l' :
  inv st → listeners st !! i = Some l →
  net l' = net l → addr l' = addr l → listener_ok l' →
  finished l' = finished l →
  inv (set_listeners (<[i:=l']> (listeners st)) st).
Proof.
  intros [] Hi Hnet Haddr Hok Hfin. split; state_simpl; try done.
  - by rewrite length_insert.
  - intros j lj. destruct (decide (i = j)) as [<-|Hne].
    + rewrite list_lookup_insert_eq by (by eapply lookup_lt_Some).
      intros [= <-]. rewrite Hnet, Haddr.
      destruct (inv_listener0 i l Hi) as (? & ? & _). done.
    + rewrite list_lookup_insert_ne by done. apply inv_listener0.
  - pose proof (count_finished_insert (listeners st) i l l' Hi) as Hc.
    rewrite Hfin in Hc. destruct (finished l); lia.
  - by rewrite length_insert.
Qed.

Lemma listener_ok_deliver s l : listener_ok l → listener_ok (deliver s l).
Proof.
  unfold deliver. case_bool_decide as Hw; [|done].
  unfold listener_ok. cbn. by rewrite Hw.
Qed.

(** Every step keeps the invariant. *)
Lemma invariant_step st lb st' :
  inv st → step st lb = Some st' → inv st'.
Proof.
  intros Hinv Hstep. pose proof (step_not_returned _ _ _ Hstep) as Hret.
  revert Hstep. unfold step. rewrite Hret.
  destruct lb as [|i|i|i|i|i|i|s|i err|i|].
  - (* MainGo *)
    destruct (listenProtocols st !! length (listeners st))
      as [protocol|] eqn:Hp; cbn; [|done].
    intros [= <-]. destruct Hinv. rewrite inv_protocols0 in Hp.
    split; state_simpl; try done.
    + rewrite length_app. cbn. apply lookup_lt_Some in Hp. lia.
    + intros j lj Hj. apply lookup_app_Some in Hj as [Hj|[Hge Hj]].
      * by apply inv_listener0.
      * apply list_lookup_singleton_Some in Hj as [Hj <-].
        replace j with (length (listeners st)) by lia.
        cbn. by rewrite inv_address0.
    + rewrite count_finished_app, inv_received0.
      change (count_finished [new_listener protocol (listenAddress st)])
        with 0%nat. lia.
    + by rewrite Hret.
  - (* ServeStart *)
    intros (l & Hl & He & ->)%on_listener_Some.
    apply bool_decide_eq_true in He.
    destruct Hinv as [? ? ? ? Hls ? ?]; destruct (Hls i l Hl) as (_ & _ & Hok).
    eapply invariant_update; [by split|done..| |].
    + unfold listener_ok in *. rewrite He in Hok. done.
    + unfold finished. cbn. rewrite He. done.
  - (* ServeGo *)
    intros (l & Hl & He & ->)%on_listener_Some.
    apply bool_decide_eq_true in He.
    destruct Hinv as [? ? ? ? Hls ? ?]; destruct (Hls i l Hl) as (_ & _ & Hok).
    eapply invariant_update; [by split|done..| |].
    + unfold listener_ok in *. rewrite He in Hok. cbn.
      by destruct Hok.
    + unfold finished. cbn. rewrite He. done.
  - (* ServeWait *)
    intros (l & Hl & He & ->)%on_listener_Some.
    apply bool_decide_eq_true in He.
    destruct Hinv as [? ? ? ? Hls ? ?]; destruct (Hls i l Hl) as (_ & _ & Hok).
    eapply invariant_update; [by split|done..| |].
    + unfold listener_ok in *. rewrite He in Hok. done.
    + unfold finished. cbn. rewrite He. done.
  - (* ListenError *)
    intros (l & Hl & He & ->)%on_listener_Some.
    apply bool_decide_eq_true in He.
    destruct Hinv as [? ? ? ? Hls ? ?]; destruct (Hls i l Hl) as (_ & _ & Hok).
    eapply invariant_update; [by split|done..| |done].
    unfold listener_ok in *. cbn. rewrite He in Hok.
    destruct (spc l); destruct Hok; by split.
  - (* ListenReturn *)
    intros (l & Hl & He & ->)%on_listener_Some.
    apply bool_decide_eq_true in He.
    destruct Hinv as [? ? ? ? Hls ? ?]; destruct (Hls i l Hl) as (_ & _ & Hok).
    eapply invariant_update; [by split|done..| |done].
    unfold listener_ok in *. cbn. rewrite He in Hok.
    destruct (spc l); destruct Hok; by split.
  - (* SelfTerm *)
    intros (l & Hl & He & ->)%on_listener_Some.
    apply andb_true_iff in He as [He1 He2].
    apply bool_decide_eq_true in He1, He2.
    destruct Hinv as [? ? ? ? Hls ? ?]; destruct (Hls i l Hl) as (_ & _ & Hok).
    eapply invariant_update; [by split|done..| |].
    + unfold listener_ok in *. rewrite He2 in Hok. cbn.
      by destruct Hok.
    + unfold finished. cbn. rewrite He2. done.
  - (* OsSignal *)
    destruct (notify_in_force st); [|done].
    intros [= <-]. destruct Hinv. split; state_simpl; try done.
    + by rewrite length_fmap.
    + intros j lj. rewrite list_lookup_fmap.
      destruct (listeners st !! j) as [l|] eqn:Hl; cbn; [|done].
      intros [= <-]. destruct (inv_listener0 j l Hl) as (? & ? & ?).
      split_and!; [| |by apply listener_ok_deliver];
        unfold deliver; by case_bool_decide.
    + by rewrite count_finished_deliver.
    + by rewrite length_fmap.
  - (* Shutdown *)
    intros (l & Hl & He & ->)%on_listener_Some.
    destruct Hinv as [? ? ? ? Hls ? ?]; destruct (Hls i l Hl) as (_ & _ & Hok).
    eapply invariant_update; [by split|done..| |].
    + unfold listener_ok in *. cbn.
      destruct (spc l); try done. destruct Hok as [? ->]. by split.
    + unfold finished. cbn. destruct (spc l); done.
  - (* Done *)
    destruct (all_spawned st && _) eqn:Hg; [|done].
    destruct (on_listener _ _ _ _) as [st1|] eqn:Hon; cbn; [|done].
    intros [= <-].
    apply on_listener_Some in Hon as (l & Hl & He & ->).
    apply bool_decide_eq_true in He.
    destruct Hinv as [? ? ? ? Hls ? ?]; destruct (Hls i l Hl) as (? & ? & Hok).
    split; state_simpl; try done.
    + by rewrite length_insert.
    + intros j lj. destruct (decide (i = j)) as [<-|Hne].
      * rewrite list_lookup_insert_eq by (by eapply lookup_lt_Some).
        intros [= <-]. split; [done|]. split; [done|].
        unfold listener_ok in *. rewrite He in Hok. exact Hok.
      * rewrite list_lookup_insert_ne by done. apply Hls.
    + pose proof (count_finished_insert (listeners st) i l
                    (set_spc SFinished l) Hl) as Hc.
      assert (Hf1 : finished l = false)
        by (unfold finished; rewrite He; by apply bool_decide_eq_false_2).
      assert (Hf2 : finished (set_spc SFinished l) = true)
        by (by apply bool_decide_eq_true_2).
      rewrite Hf1, Hf2 in Hc. lia.
    + by rewrite Hret.
  - (* MainReturn *)
    destruct (all_spawned st && _) eqn:Hg; [|done].
    intros [= <-]. apply andb_true_iff in Hg as [Hg1 Hg2].
    apply Nat.eqb_eq in Hg1, Hg2.
    destruct Hinv. rewrite inv_protocols0 in Hg1, Hg2.
    split; cbn; done.
Qed.

Lemma invariant_run schedule st st' :
  inv st → run st schedule = Some st' → inv st'.
Proof.
  revert st. induction schedule as [|lb rest IH]; intros st Hinv; cbn.
  - by intros [= <-].
  - destruct (step st lb) as [st1|] eqn:Hs; cbn; [|done].
    apply IH. by eapply invariant_step.
Qed.

Lemma invariant_reachable st :
  reachable opt protocols address st → inv st.
Proof. intros [schedule Hrun]. eapply invariant_run; [apply invariant_init|done]. Qed.

End Invariant.

Section Shutdown.

Context {Options : Type}.
Variables (opt : Options) (protocols : list string) (address : string).
Implicit Types st : State Options.

(** [main] has returned: every protocol has its listener, and every
    listener is over, after one call of [Shutdown]. *)
Lemma returned_all_finished st :
  invariant opt protocols address st → returned st = true →
  length (listeners st) = length protocols
  ∧ received st = length protocols
  ∧ ∀ i protocol, protocols !! i = Some protocol →
      ∃ l, listeners st !! i = Some l ∧ net l = protocol
           ∧ spc l = SFinished ∧ shutdowns l = 1%nat.
Proof.
  intros [] Hret. destruct (inv_returned0 Hret) as [Hlen Hrec].
  split; [done|]. split; [done|].
  intros i protocol Hp.
  destruct (lookup_lt_is_Some_2 (listeners st) i) as [l Hl].
  { rewrite Hlen. by eapply lookup_lt_Some. }
  exists l. destruct (inv_listener0 i l Hl) as (Hnet & _ & Hok).
  assert (Hfin : finished l = true).
  { eapply count_finished_all; [|done]. congruence. }
  apply bool_decide_eq_true in Hfin.
  unfold listener_ok in Hok. rewrite Hfin in Hok.
  split_and!; [done|congruence|done|by destruct Hok].
Qed.

(** Only a [Done] step completes a [<-servers]. *)
Lemma step_received st lb st' :
  step st lb = Some st' →
  received st' = (received st + (if is_Done lb then 1 else 0))%nat.
Proof.
  unfold step. destruct (returned st); [done|].
  destruct lb; cbn;
    repeat match goal with
    | |- context [if ?b then _ else _] => destruct b; try done
    | |- context [on_listener ?i ?e ?f ?s] =>
        let H := fresh in
        destruct (on_listener i e f s) as [?|] eqn:H; cbn; [|done];
        apply on_listener_Some in H as (? & _ & _ & ->)
    | |- context [listenProtocols ?s !! ?k] =>
        destruct (listenProtocols s !! k); cbn; [|done]
    end; intros [= <-]; cbn; lia.
Qed.

Lemma notifications_cons lb schedule :
  notifications (lb :: schedule)
  = ((if is_Done lb then 1 else 0) + notifications schedule)%nat.
Proof.
  unfold notifications. destruct (is_Done lb) eqn:Hlb.
  - by rewrite filter_cons_True.
  - rewrite filter_cons_False; [done|]. by rewrite Hlb.
Qed.

(** Every completed [<-servers] is a [Done] step of the schedule. *)
Lemma run_notifications schedule st st' :
  run st schedule = Some st' →
  received st' = (received st + notifications schedule)%nat.
Proof.
  revert st. induction schedule as [|lb rest IH]; intros st.
  - intros [= <-]. unfold notifications. cbn. lia.
  - cbn [run]. destruct (step st lb) as [st1|] eqn:Hs;
      cbn [mbind option_bind]; [|done].
    intros ->%IH. rewrite notifications_cons.
    apply step_received in Hs. lia.
Qed.

(** A listener that is not over leaves room in the wait loop. *)
Lemma count_finished_lt (ls : list Listener) i l :
  ls !! i = Some l → finished l = false →
  (count_finished ls < length ls)%nat.
Proof.
  revert i. induction ls as [|x ls IH]; intros i Hi Hf; [done|].
  rewrite count_finished_cons. cbn [length].
  pose proof (count_finished_le ls).
  destruct i as [|i]; cbn in Hi.
  - simplify_eq. rewrite Hf. lia.
  - specialize (IH i Hi Hf). destruct (finished x); lia.
Qed.

(** A serve loop with a signal runs to its end. *)
Lemma run_finish_listener st i l :
  waiting st → listeners st !! i = Some l → signalled l = true →
  ∃ st' l', run st (finish_listener i l) = Some st'
    ∧ waiting st'
    ∧ listeners st' = <[i := l']> (listeners st)
    ∧ finished l' = true.
Proof.
  intros (Hall & Hret & Hrec) Hl Hsig.
  assert (Hdone : ∀ st1 l1,
    all_spawned st1 = true → returned st1 = false →
    received st1 = count_finished (listeners st1) →
    listeners st1 !! i = Some l1 → spc l1 = SShutdownDone →
    ∃ st', step st1 (Done i) = Some st' ∧ waiting st'
      ∧ listeners st' = <[i := set_spc SFinished l1]> (listeners st1)).
  { intros st1 l1 Hall1 Hret1 Hrec1 Hl1 Hspc. unfold step.
    rewrite Hret1, Hall1.
    assert (Hf : finished l1 = false).
    { unfold finished. rewrite Hspc. by apply bool_decide_eq_false_2. }
    pose proof (count_finished_lt _ _ _ Hl1 Hf) as Hlt.
    unfold all_spawned in Hall1. apply Nat.eqb_eq in Hall1.
    assert ((received st1 <? length (listenProtocols st1))%nat = true)
      as -> by (apply Nat.ltb_lt; lia).
    cbn [andb]. unfold on_listener. rewrite Hl1. cbn.
    rewrite bool_decide_eq_true_2 by done. cbn.
    eexists. split; [done|]. split; [|done].
    unfold waiting, all_spawned. state_simpl.
    rewrite length_insert. split; [by apply Nat.eqb_eq|]. split; [done|].
    pose proof (count_finished_insert (listeners st1) i l1
                  (set_spc SFinished l1) Hl1) as Hc.
    rewrite Hf in Hc.
    assert (finished (set_spc SFinished l1) = true) as Hf2
      by (by apply bool_decide_eq_true_2).
    rewrite Hf2 in Hc. lia. }
  unfold finish_listener. unfold signalled in Hsig.
  destruct (spc l) eqn:Hspc; try done.
  - (* SGotSignal: Shutdown, then Done *)
    cbn [run]. rewrite (step_Shutdown st i l s false Hret Hl Hspc).
    cbn [mbind option_bind].
    set (st1 := set_listeners (<[i:=call_shutdown l]> (listeners st)) st).
    destruct (Hdone st1 (call_shutdown l)) as (st' & Hs & Hw & Hls).
    + unfold all_spawned, st1. state_simpl. by rewrite length_insert.
    + done.
    + unfold st1. state_simpl.
      pose proof (count_finished_insert (listeners st) i l
                    (call_shutdown l) Hl) as Hc.
      assert (finished l = false) as Hf1
        by (unfold finished; rewrite Hspc; by apply bool_decide_eq_false_2).
      assert (finished (call_shutdown l) = false) as Hf2
        by (by apply bool_decide_eq_false_2).
      rewrite Hf1, Hf2 in Hc. lia.
    + unfold st1. state_simpl.
      apply list_lookup_insert_eq. by eapply lookup_lt_Some.
    + done.
    + rewrite Hs. cbn. exists st', (set_spc SFinished (call_shutdown l)).
      split; [done|]. split; [done|]. split.
      * rewrite Hls. unfold st1. state_simpl.
        by rewrite list_insert_insert_eq.
      * by apply bool_decide_eq_true_2.
  - (* SShutdownDone: Done *)
    destruct (Hdone st l Hall Hret Hrec Hl Hspc) as (st' & Hs & Hw & Hls).
    cbn [run]. rewrite Hs. cbn. exists st', (set_spc SFinished l).
    split; [done|]. split; [done|]. split; [done|].
    by apply bool_decide_eq_true_2.
  - (* SFinished: nothing to do *)
    exists st, l. cbn. split; [done|]. split; [done|].
    split; [by rewrite list_insert_id|].
    unfold finished. rewrite Hspc. by apply bool_decide_eq_true_2.
Qed.

End Shutdown.

Section WindDown.

Context {Options : Type}.
Implicit Types st : State Options.

Lemma count_finished_full (ls : list Listener) :
  (∀ i l, ls !! i = Some l → finished l = true) →
  count_finished ls = length ls.
Proof.
  induction ls as [|x ls IH]; intros Hall; [done|].
  rewrite count_finished_cons, (Hall 0%nat x eq_refl). cbn [length].
  rewrite IH; [done|]. intros i l Hi. by apply (Hall (S i)).
Qed.

(** The listeners from position [k] on, all with a signal, run to
    their end one after the other. *)
Lemma run_finish_from n : ∀ st k,
  waiting st → length (listeners st) = (k + n)%nat →
  (∀ j l, (k ≤ j)%nat → listeners st !! j = Some l → signalled l = true) →
  ∃ st', run st (finish_from k (drop k (listeners st))) = Some st'
    ∧ waiting st'
    ∧ length (listeners st') = length (listeners st)
    ∧ (∀ j, (j < k)%nat → listeners st' !! j = listeners st !! j)
    ∧ (∀ j l, (k ≤ j)%nat → listeners st' !! j = Some l →
         finished l = true).
Proof.
  induction n as [|n IH]; intros st k Hw Hlen Hsig.
  - rewrite drop_ge by lia. exists st. cbn. split_and!; try done.
    intros j l Hj Hl. apply lookup_lt_Some in Hl. lia.
  - destruct (lookup_lt_is_Some_2 (listeners st) k) as [l Hl]; [lia|].
    rewrite (drop_S _ _ _ Hl). cbn [finish_from]. rewrite run_app.
    destruct (run_finish_listener st k l Hw Hl (Hsig k l ltac:(lia) Hl))
      as (st1 & l' & Hrun & Hw1 & Hls & Hfin).
    rewrite Hrun. cbn [mbind option_bind].
    assert (Hdrop : drop (S k) (listeners st) = drop (S k) (listeners st1)).
    { rewrite Hls. by rewrite drop_insert_lt by lia. }
    rewrite Hdrop.
    destruct (IH st1 (S k) Hw1) as (st' & Hrun' & Hw' & Hlen' & Hlow & Hhigh).
    { rewrite Hls, length_insert. lia. }
    { intros j lj Hj. rewrite Hls, list_lookup_insert_ne by lia.
      apply Hsig. lia. }
    exists st'. split; [done|]. split; [done|]. split_and!.
    + rewrite Hlen', Hls. by rewrite length_insert.
    + intros j Hj. rewrite Hlow by lia.
      rewrite Hls. by rewrite list_lookup_insert_ne by lia.
    + intros j lj Hj Hlj. destruct (decide (j = k)) as [->|Hne].
      * rewrite Hlow in Hlj by lia.
        rewrite Hls, list_lookup_insert_eq in Hlj by lia. by simplify_eq.
      * apply (Hhigh j lj); [lia|done].
Qed.

(** The schedule [wind_down] has no step of the environment: it needs
    no further signal and no return of [ListenAndServe]. *)
Lemma wind_down_steps st :
  Forall (λ lb, winding_down lb = true) (wind_down st).
Proof.
  unfold wind_down. apply Forall_app. split; [|by repeat constructor].
  generalize 0%nat. induction (listeners st) as [|l ls IH]; intros k.
  - constructor.
  - cbn [finish_from]. apply Forall_app. split; [|apply IH].
    unfold finish_listener. destruct (spc l); by repeat constructor.
Qed.

(** With every goroutine started and every serve loop signalled, the
    schedule [wind_down] runs and ends with the return of [main]. *)
Lemma run_wind_down st :
  received st = count_finished (listeners st) →
  returned st = false → all_spawned st = true →
  (∀ i l, listeners st !! i = Some l → signalled l = true) →
  ∃ st', run st (wind_down st) = Some st' ∧ returned st' = true.
Proof.
  intros Hrec Hret Hall Hsig. unfold wind_down. rewrite run_app.
  destruct (run_finish_from (length (listeners st)) st 0)
    as (st1 & Hrun & (Hall1 & Hret1 & Hrec1) & Hlen & _ & Hfin);
    [done|done|by eauto|].
  rewrite drop_0 in Hrun. rewrite Hrun. cbn [mbind option_bind run].
  unfold step. rewrite Hret1, Hall1.
  rewrite count_finished_full in Hrec1
    by (intros i l; apply Hfin; lia).
  unfold all_spawned in Hall1. apply Nat.eqb_eq in Hall1.
  assert ((received st1 =? length (listenProtocols st1))%nat = true)
    as -> by (apply Nat.eqb_eq; lia).
  cbn. eauto.
Qed.

End WindDown.

Section Claims.

Context {Options : Type}.
Variables (opt : Options) (protocols : list string) (address : string).
Implicit Types st : State Options.

(** X12.  In every state the process can reach: a SIGINT or SIGTERM of
    the operating system that arrives while a serve loop is blocked in
    [<-sig] is relayed, and every serve loop that is blocked there takes
    it; a serve loop that has taken a signal calls [Shutdown] on its
    server next, whatever that returns; a listener offers its completion
    only after that one call; [main] has returned only after one
    completion notification per protocol, with every listener over; and
    once every serve loop has its signal and [main] is in the wait loop,
    the remaining steps run and [main] returns. *)
Theorem waiting_listeners_shut_down_before_exit schedule st :
  run (init opt protocols address) schedule = Some st →
  (returned st = false → ∀ s i l,
     listeners st !! i = Some l → spc l = SWaiting →
     ∃ st', step st (OsSignal s) = Some st'
       ∧ ∀ j lj, listeners st !! j = Some lj → spc lj = SWaiting →
           listeners st' !! j = Some (set_spc (SGotSignal s) lj))
  ∧ (returned st = false → ∀ i l s err,
       listeners st !! i = Some l → spc l = SGotSignal s →
       step st (Shutdown i err)
       = Some (set_listeners (<[i := call_shutdown l]> (listeners st)) st))
  ∧ (∀ i l, listeners st !! i = Some l →
       (spc l = SShutdownDone ∨ spc l = SFinished → shutdowns l = 1%nat)
       ∧ (signalled l = false → shutdowns l = 0%nat))
  ∧ (returned st = true →
       notifications schedule = length protocols
       ∧ ∀ i protocol, protocols !! i = Some protocol →
           ∃ l, listeners st !! i = Some l ∧ net l = protocol
                ∧ spc l = SFinished ∧ shutdowns l = 1%nat)
  ∧ (returned st = false → all_spawned st = true →
       (∀ i l, listeners st !! i = Some l → signalled l = true) →
       Forall (λ lb, winding_down lb = true) (wind_down st)
       ∧ ∃ st', run st (wind_down st) = Some st' ∧ returned st' = true).
Proof.
  intros Hrun.
  assert (Hinv : invariant opt protocols address st)
    by (eapply invariant_run; [apply invariant_init|done]).
  split_and!.
  - intros Hret s i l Hl Hspc. eexists. split.
    + apply step_OsSignal. split_and!; [done| |done].
      apply notify_in_force_true. exists i, l. by rewrite Hspc.
    + intros j lj Hj Hw. state_simpl. rewrite list_lookup_fmap, Hj. cbn.
      unfold deliver. by rewrite bool_decide_eq_true_2.
  - intros Hret i l s err Hl Hspc. by eapply step_Shutdown.
  - intros i l Hl. destruct Hinv as [_ _ _ _ Hls _ _].
    destruct (Hls i l Hl) as (_ & _ & Hok). unfold listener_ok in Hok.
    split.
    + by intros [Hspc|Hspc]; rewrite Hspc in Hok; destruct Hok.
    + unfold signalled. by destruct (spc l); destruct Hok.
  - intros Hret.
    destruct (returned_all_finished opt protocols address st Hinv Hret)
      as (_ & Hrec & Hall).
    split; [|done]. apply run_notifications in Hrun. cbn in Hrun. lia.
  - intros Hret Hall Hsig. split; [apply wind_down_steps|].
    apply run_wind_down; try done. by destruct Hinv.
Qed.

(** C10.  When [ListenAndServe] of listener [i] returns an error while
    its serve loop has no signal yet, the goroutine logs and blocks in a
    send on the channel of that serve call; from there the steps of
    [failure_path] run: the serve loop, once in [<-sig], takes SIGTERM
    from its own goroutine, exactly as it takes one from the operating
    system, and calls [Shutdown].  Along the way only listener [i]
    changes, [main] neither returns nor counts, and the send is not taken
    before the serve loop waits.  However the process goes on from
    there, [main] returns only when every listener is over. *)
Theorem listen_failure_stops_its_own_listener schedule st i l :
  run (init opt protocols address) schedule = Some st →
  returned st = false →
  listeners st !! i = Some l →
  lpc l = LListening → signalled l = false →
  (∃ st1, step st (ListenError i) = Some st1
     ∧ listeners st1 = <[i := set_lpc LFailed l]> (listeners st)
     ∧ returned st1 = false ∧ received st1 = received st
     ∧ (spc l ≠ SWaiting → step st1 (SelfTerm i) = None))
  ∧ (∀ err, ∃ st3 l3,
       run st (failure_path i l err) = Some st3
       ∧ listeners st3 = <[i := l3]> (listeners st)
       ∧ net l3 = net l ∧ addr l3 = addr l
       ∧ spc l3 = SShutdownDone ∧ lpc l3 = LReturned
       ∧ shutdowns l3 = 1%nat
       ∧ returned st3 = false ∧ received st3 = received st
       ∧ ∀ j, j ≠ i → listeners st3 !! j = listeners st !! j)
  ∧ (∀ l', spc l' = SWaiting →
       spc (set_lpc LReturned (set_spc (SGotSignal SIGTERM) l'))
       = spc (deliver SIGTERM l'))
  ∧ (∀ schedule' st',
       run st schedule' = Some st' → returned st' = true →
       ∀ j protocol, protocols !! j = Some protocol →
         ∃ lj, listeners st' !! j = Some lj ∧ net lj = protocol
               ∧ spc lj = SFinished ∧ shutdowns lj = 1%nat).
Proof.
  intros Hrun Hret Hl Hlpc Hsig.
  assert (Hinv : invariant opt protocols address st)
    by (eapply invariant_run; [apply invariant_init|done]).
  assert (Hlt : (i < length (listeners st))%nat)
    by (by eapply lookup_lt_Some).
  assert (Hspc : (spc l = SSpawned ∨ spc l = SWaiting)
                 ∧ shutdowns l = 0%nat).
  { destruct Hinv as [_ _ _ _ Hls _ _].
    destruct (Hls i l Hl) as (_ & _ & Hok). unfold listener_ok in Hok.
    unfold signalled in Hsig. rewrite Hlpc in Hok.
    destruct (spc l); try done; destruct Hok; try done; auto. }
  destruct Hspc as [Hspc Hshut].
  pose proof (step_ListenError st i l Hret Hl Hlpc) as Hstep1.
  set (st1 := set_listeners (<[i:=set_lpc LFailed l]> (listeners st)) st)
    in Hstep1.
  assert (Hl1 : listeners st1 !! i = Some (set_lpc LFailed l))
    by (by apply list_lookup_insert_eq).
  split_and!.
  - exists st1. split_and!; try done.
    intros Hnw. unfold step. change (returned st1) with (returned st).
    rewrite Hret. unfold on_listener. rewrite Hl1. cbn.
    rewrite (bool_decide_eq_false_2 (spc l = SWaiting)) by done.
    by rewrite andb_false_r.
  - intros err. unfold failure_path. cbn [app run]. rewrite Hstep1.
    cbn [mbind option_bind].
    (* the serve loop reaches its receive *)
    assert (∃ st2 l2,
      run st1 (if bool_decide (spc l = SSpawned)
               then [ServeWait i] else []) = Some st2
      ∧ listeners st2 = <[i := l2]> (listeners st)
      ∧ net l2 = net l ∧ addr l2 = addr l ∧ spc l2 = SWaiting
      ∧ lpc l2 = LFailed ∧ shutdowns l2 = 0%nat
      ∧ returned st2 = false ∧ received st2 = received st)
      as (st2 & l2 & Hrun2 & Hls2 & ? & ? & Hspc2 & Hlpc2 & ? & Hret2 & ?).
    { destruct Hspc as [Hs|Hs].
      + rewrite bool_decide_eq_true_2 by done. cbn [run].
        rewrite (step_ServeWait st1 i (set_lpc LFailed l)) by done.
        eexists _, _. split; [done|]. unfold st1. state_simpl.
        rewrite list_insert_insert_eq. done.
      + rewrite bool_decide_eq_false_2 by (by rewrite Hs).
        exists st1, (set_lpc LFailed l). done. }
    rewrite run_app, Hrun2. cbn [mbind option_bind run].
    assert (Hl2 : listeners st2 !! i = Some l2)
      by (rewrite Hls2; by apply list_lookup_insert_eq).
    rewrite (step_SelfTerm st2 i l2) by done. cbn [mbind option_bind].
    rewrite (step_Shutdown _ i
               (set_lpc LReturned (set_spc (SGotSignal SIGTERM) l2))
               SIGTERM err); [|done| |done]; cycle 1.
    { state_simpl. apply list_lookup_insert_eq.
      by rewrite Hls2, length_insert. }
    cbn [mbind option_bind]. eexists _, _. split; [done|]. state_simpl.
    rewrite Hls2, !list_insert_insert_eq. split; [done|].
    cbn. split_and!; try done; try lia.
    intros j Hj. by rewrite list_lookup_insert_ne.
  - intros l' Hw. unfold deliver. by rewrite bool_decide_eq_true_2.
  - intros schedule' st' Hrun' Hret'.
    eapply returned_all_finished; [|done].
    by eapply invariant_run.
Qed.

End Claims.

End ServeFacts.

(** * Facts about the bootstrap *)

Section BootstrapFacts.

Context {IP Endpoint Provider Err : Type}.
Variable ParseIP : string → option IP.
Variable ParseEndpoint : string → Z → result Err Endpoint.
Variable NewGDNSProvider :
  string → @GDNSOptions IP Endpoint → result Err Provider.

#[local] Existing Instances M_ret M_bind.

Abbreviation Ev := (@Event IP Endpoint Provider Err).
Abbreviation Proc := (@Process IP Endpoint Provider Err).
Abbreviation run_main' := (run_main ParseIP ParseEndpoint NewGDNSProvider).
Abbreviation configured' := (@configured IP Endpoint Provider Err ParseIP ParseEndpoint).
Abbreviation options_of' := (options_of ParseIP ParseEndpoint).

(** The loop over [endpoint-ips] appends the addresses that parse and
    logs the others; it always returns. *)
Lemma range_endpoint_ips (eips : list string) (p : Proc) :
  range eips (λ eip,
    match ParseIP eip with
    | None => emit (Log LERROR (UnableToParseIP eip))
    | Some ip => set_gdnsOPT (append_EndpointIPs ip)
    end) p
  = (Return tt,
     {| gdnsOPT :=
          {| PROXY := PROXY (gdnsOPT p); EDNS := EDNS (gdnsOPT p);
             Pad := Pad (gdnsOPT p); Secure := Secure (gdnsOPT p);
             EndpointIPs := EndpointIPs (gdnsOPT p) ++ omap ParseIP eips;
             DNSServers := DNSServers (gdnsOPT p) |};
        gdnsEndPT := gdnsEndPT p; listenAddress := listenAddress p;
        listenProtocols := listenProtocols p;
        events := events p ++ ip_errors ParseIP eips |}).
Proof.
  revert p. induction eips as [|eip eips IH]; intros p.
  - destruct p as [[] ? ? ? ?]; cbn. by rewrite !app_nil_r.
  - cbn [range]. unfold mbind, M_bind at 1.
    unfold ip_errors. cbn [omap list_omap].
    destruct (ParseIP eip) as [ip|]; cbn [emit set_gdnsOPT];
      rewrite IH; cbn; by rewrite <- !app_assoc.
Qed.

(** The loop over [dns-servers], likewise. *)
Lemma range_dns_servers (servers : list string) (p : Proc) :
  range servers (λ dns,
    match ParseEndpoint dns 53 with
    | Error err => emit (Log LERROR (ErrorValue err))
    | Ok d => set_gdnsOPT (append_DNSServers d)
    end) p
  = (Return tt,
     {| gdnsOPT :=
          {| PROXY := PROXY (gdnsOPT p); EDNS := EDNS (gdnsOPT p);
             Pad := Pad (gdnsOPT p); Secure := Secure (gdnsOPT p);
             EndpointIPs := EndpointIPs (gdnsOPT p);
             DNSServers := DNSServers (gdnsOPT p)
               ++ omap (λ dns, match ParseEndpoint dns 53 with
                               | Ok d => Some d
                               | Error _ => None
                               end) servers |};
        gdnsEndPT := gdnsEndPT p; listenAddress := listenAddress p;
        listenProtocols := listenProtocols p;
        events := events p ++ server_errors ParseEndpoint servers |}).
Proof.
  revert p. induction servers as [|dns servers IH]; intros p.
  - destruct p as [[] ? ? ? ?]; cbn. by rewrite !app_nil_r.
  - cbn [range]. unfold mbind, M_bind at 1.
    unfold server_errors. cbn [omap list_omap].
    destruct (ParseEndpoint dns 53) as [d|err]; cbn [emit set_gdnsOPT];
      rewrite IH; cbn; by rewrite <- !app_assoc.
Qed.

(** The spawn loop records one [GoServe] per protocol, in order. *)
Lemma range_go (protocols : list string) (p : Proc) :
  range protocols (λ protocol,
    p ← get ; emit (GoServe protocol (listenAddress p))) p
  = (Return tt,
     {| gdnsOPT := gdnsOPT p; gdnsEndPT := gdnsEndPT p;
        listenAddress := listenAddress p;
        listenProtocols := listenProtocols p;
        events := events p
          ++ map (λ protocol, GoServe protocol (listenAddress p)) protocols |}).
Proof.
  revert p. induction protocols as [|x xs IH]; intros p.
  - destruct p; cbn. by rewrite app_nil_r.
  - cbn [range]. unfold mbind, M_bind at 1. cbn.
    rewrite IH. cbn. by rewrite <- app_assoc.
Qed.

Lemma protocols_of_nil (c : Context) :
  protocols_of c = [] ↔ flag_tcp c = false ∧ flag_udp c = false.
Proof.
  unfold protocols_of.
  destruct (flag_tcp c), (flag_udp c); split; try done; by intros [].
Qed.

(** [Action] with at least one transport: it returns in state
    [configured c]. *)
Lemma Action_returns (c : Context) :
  protocols_of c ≠ [] →
  Action ParseIP ParseEndpoint c process_start = (Return tt, configured' c []).
Proof.
  intros Hp. unfold Action.
  assert (Hlen : Nat.eqb 0 (length (protocols_of c)) = false).
  { destruct (protocols_of c); [done | reflexivity]. }
  unfold protocols_of in Hlen.
  unfold mbind, M_bind, configured, action_events, options_of,
    parsed_ips, parsed_servers, protocols_of.
  destruct (flag_tcp c), (flag_udp c); cbn in Hlen; try discriminate;
    cbn; rewrite range_endpoint_ips; cbn; rewrite range_dns_servers; cbn;
    by rewrite ?app_nil_r, <- ?app_assoc.
Qed.

(** [Action] without a transport: help text, then [os.Exit(0)]. *)
Lemma Action_help (c : Context) :
  protocols_of c = [] →
  Action ParseIP ParseEndpoint c process_start
  = (Exit 0, help_shown (Provider := Provider) (Err := Err) c).
Proof.
  intros [Ht Hu]%protocols_of_nil. unfold Action, mbind, M_bind.
  rewrite Ht, Hu. reflexivity.
Qed.

(** The three ways a run of [main] can go. *)
Lemma run_main_cases (c : Context) :
  run_main' c =
  match protocols_of c with
  | [] => (Exit 0, help_shown c)
  | _ :: _ =>
      match NewGDNSProvider (flag_endpoint c) (options_of' c) with
      | Error err =>
          (Exit 1,
           configured' c [NewProvider (flag_endpoint c) (options_of' c);
                          Fatal err])
      | Ok provider =>
          (Return tt,
           configured' c ([NewProvider (flag_endpoint c) (options_of' c);
                           HandleFunc "." provider] ++ go_statements c))
      end
  end.
Proof.
  unfold run_main, main. unfold mbind at 1. unfold M_bind at 1.
  destruct (protocols_of c) as [|x xs] eqn:Hp.
  - by rewrite Action_help.
  - rewrite Action_returns by (rewrite Hp; done).
    unfold mbind, M_bind. cbn [get emit configured gdnsOPT gdnsEndPT].
    destruct (NewGDNSProvider _ _) as [provider|err]; cbn.
    + rewrite range_go. cbn. unfold configured, go_statements.
      rewrite Hp, app_nil_r. cbn. by rewrite <- !app_assoc.
    + unfold configured. rewrite Hp, app_nil_r. by rewrite <- !app_assoc.
Qed.

(** [Action] only logs. *)
Lemma action_events_log (c : Context) (e : Ev) :
  e ∈ action_events ParseIP ParseEndpoint c → ∃ lvl m, e = Log lvl m.
Proof.
  unfold action_events, ip_errors, server_errors.
  rewrite !elem_of_app, !list_elem_of_omap, !list_elem_of_singleton.
  intros [(eip & _ & H)|[->|[(dns & _ & H)| ->]]]; eauto.
  - destruct (ParseIP eip); simplify_eq; eauto.
  - destruct (ParseEndpoint dns 53); simplify_eq; eauto.
Qed.

Lemma filter_none {A} (P : A → Prop) `{∀ x, Decision (P x)} (l : list A) :
  (∀ x, x ∈ l → ¬ P x) → filter P l = [].
Proof.
  induction l as [|x l IH]; intros Hl; [done|].
  rewrite filter_cons_False by (apply Hl; left).
  apply IH. intros y Hy. apply Hl. by right.
Qed.

(** The goroutines started by a run that passed [Action] are among the
    events after it. *)
Lemma started_configured (c : Context) (es : list Ev) :
  started (configured' c es) = filter (λ e, is_GoServe e = true) es.
Proof.
  unfold started, configured; cbn [events]. rewrite filter_app.
  rewrite filter_none; [done|].
  intros e (lvl & m & ->)%action_events_log. done.
Qed.

Lemma started_go_statements (c : Context) :
  filter (λ e : Ev, is_GoServe e = true) (go_statements c) = go_statements c.
Proof.
  unfold go_statements. induction (protocols_of c) as [|x xs IH]; [done|].
  cbn [map]. rewrite filter_cons_True by done. by rewrite IH.
Qed.

(** The single provider construction of a run: it happens only after
    [Action] returned, with the endpoint and the options of the context. *)
Lemma new_provider_event (c : Context) ep opt :
  NewProvider ep opt ∈ events (run_main' c).2 →
  protocols_of c ≠ [] ∧ ep = flag_endpoint c ∧ opt = options_of' c.
Proof.
  rewrite run_main_cases.
  destruct (protocols_of c) as [|x xs] eqn:Hp.
  - cbn. rewrite list_elem_of_singleton. done.
  - destruct (NewGDNSProvider _ _) as [provider|err]; cbn;
      rewrite !elem_of_app, ?elem_of_cons, ?elem_of_nil;
      unfold go_statements; rewrite ?list_elem_of_fmap;
      intros [(lvl & m & ?)%action_events_log|H]; try done;
      intuition (try done; try (simplify_eq; done));
      destruct H as (? & ? & ?); done.
Qed.

(** The events of a run in which the provider was constructed. *)
Lemma go_serve_event (c : Context) protocol address :
  GoServe protocol address ∈ events (run_main' c).2 →
  GoServe protocol address ∈ go_statements (IP := IP) (Endpoint := Endpoint)
                               (Provider := Provider) (Err := Err) c
  ∧ ∃ provider,
      NewGDNSProvider (flag_endpoint c) (options_of' c) = Ok provider.
Proof.
  rewrite run_main_cases.
  destruct (protocols_of c) as [|x xs] eqn:Hp.
  - cbn. rewrite list_elem_of_singleton. done.
  - destruct (NewGDNSProvider _ _) as [provider|err]; cbn;
      rewrite !elem_of_app, ?elem_of_cons, ?elem_of_nil;
      intros [(lvl & m & ?)%action_events_log|H]; try done;
      intuition (try done; eauto).
Qed.

Lemma elem_of_go_statements (c : Context) protocol address :
  GoServe protocol address ∈ go_statements (IP := IP) (Endpoint := Endpoint)
                               (Provider := Provider) (Err := Err) c
  ↔ address = flag_listen c
    ∧ ((protocol = "tcp" ∧ flag_tcp c = true)
       ∨ (protocol = "udp" ∧ flag_udp c = true)).
Proof.
  unfold go_statements, protocols_of. rewrite list_elem_of_fmap.
  split.
  - intros (x & [= -> ->] & Hx).
    destruct (flag_tcp c), (flag_udp c); cbn in Hx;
      rewrite ?elem_of_cons, ?elem_of_nil in Hx; intuition.
  - intros [-> [[-> ->]|[-> ->]]]; eexists; (split; [done|]);
      destruct (flag_tcp c), (flag_udp c); cbn;
      rewrite ?elem_of_cons; auto.
Qed.

(** C1, as amended.  In a run with tcp or udp enabled (with neither,
    [Action] shows the help and exits before it reads the addresses), a
    static address string that does not parse (an [endpoint-ips] entry
    that [net.ParseIP] rejects, a [dns-servers] entry that
    [gdns.ParseEndpoint] rejects) is logged at error level and skipped,
    and it is not fatal: [Action] returns, the options keep exactly the
    entries that parse, in order, and when the provider is constructed
    [main] goes on to start every enabled listener. *)
Theorem unparsable_address_is_logged_and_skipped (c : Context) :
  protocols_of c ≠ [] →
  ∃ p : Proc, Action ParseIP ParseEndpoint c process_start = (Return tt, p)
    ∧ EndpointIPs (gdnsOPT p) = omap ParseIP (flag_endpoint_ips c)
    ∧ DNSServers (gdnsOPT p)
      = omap (λ dns, match ParseEndpoint dns 53 with
                     | Ok d => Some d
                     | Error _ => None
                     end) (flag_dns_servers c)
    ∧ (∀ eip, eip ∈ flag_endpoint_ips c → ParseIP eip = None →
         Log LERROR (UnableToParseIP eip) ∈ events p)
    ∧ (∀ dns err, dns ∈ flag_dns_servers c →
         ParseEndpoint dns 53 = Error err →
         Log LERROR (ErrorValue err) ∈ events p)
    ∧ (∀ provider,
         NewGDNSProvider (gdnsEndPT p) (gdnsOPT p) = Ok provider →
         (run_main' c).1 = Return tt
         ∧ started (run_main' c).2 = go_statements c
         ∧ go_statements (IP := IP) (Endpoint := Endpoint)
             (Provider := Provider) (Err := Err) c ≠ []).
Proof.
  intros Hp. eexists. split; [by apply Action_returns|].
  split; [done|]. split; [done|].
  cbn [events configured]. unfold action_events.
  split; [|split].
  - intros eip Hin Hnone. rewrite !elem_of_app. do 2 left.
    unfold ip_errors. apply list_elem_of_omap. exists eip.
    by rewrite Hnone.
  - intros dns err Hin Herr. rewrite !elem_of_app. left. do 2 right. left.
    unfold server_errors. apply list_elem_of_omap. exists dns.
    by rewrite Herr.
  - intros provider Hok. cbn [configured gdnsEndPT gdnsOPT] in Hok.
    rewrite run_main_cases, Hok.
    destruct (protocols_of c) as [|x xs] eqn:Hx; [done|].
    cbn [fst snd]. split; [done|].
    rewrite started_configured. cbn [app].
    rewrite !filter_cons_False by (cbn; done).
    rewrite started_go_statements. split; [done|].
    unfold go_statements. by rewrite Hx.
Qed.

(** C2.  When the provider construction that [main] performs returns an
    error, the process exits with status 1 and no listener was started;
    and a run of [main] that ends the process with a status other than 0
    is such a run: there is no other failure during startup. *)
Theorem provider_error_is_the_only_startup_failure (c : Context) :
  (∀ ep opt err,
      NewProvider ep opt ∈ events (run_main' c).2 →
      NewGDNSProvider ep opt = Error err →
      exits_before_listening (run_main' c) 1
      ∧ Fatal err ∈ events (run_main' c).2)
  ∧ (∀ status,
      (run_main' c).1 = Exit status → status ≠ 0 →
      status = 1
      ∧ ∃ ep opt err, NewProvider ep opt ∈ events (run_main' c).2
                      ∧ NewGDNSProvider ep opt = Error err).
Proof.
  split.
  - intros ep opt err (Hp & -> & ->)%new_provider_event Herr.
    rewrite run_main_cases, Herr.
    destruct (protocols_of c) as [|x xs]; [done|].
    unfold exits_before_listening. cbn [fst snd].
    rewrite started_configured.
    rewrite !filter_cons_False by (cbn; done).
    split; [done|]. cbn. rewrite !elem_of_app, !elem_of_cons. auto.
  - intros status. rewrite run_main_cases.
    destruct (protocols_of c) as [|x xs].
    + cbn. intros [= <-]. done.
    + destruct (NewGDNSProvider _ _) as [provider|err] eqn:Hnew; cbn;
        [done|].
      intros [= <-] _. split; [done|].
      exists (flag_endpoint c), (options_of' c), err.
      split; [|done]. rewrite !elem_of_app, !elem_of_cons. auto.
Qed.

(** C6.  The options with which the provider is constructed negate the
    two toggles: [Pad] holds iff [no-pad] is absent and [Secure] holds iff
    [insecure] is absent; with neither toggle given both hold. *)
Theorem provider_options_negate_the_toggles (c : Context) ep opt :
  NewProvider ep opt ∈ events (run_main' c).2 →
  Pad opt = negb (flag_no_pad c)
  ∧ Secure opt = negb (flag_insecure c)
  ∧ (Pad opt = true ↔ flag_no_pad c = false)
  ∧ (Secure opt = true ↔ flag_insecure c = false)
  ∧ (flag_no_pad c = false → flag_insecure c = false →
     Pad opt = true ∧ Secure opt = true).
Proof.
  intros (_ & _ & ->)%new_provider_event. cbn [options_of Pad Secure].
  destruct (flag_no_pad c), (flag_insecure c); cbn; intuition.
Qed.

(** C7, as amended.  Provided the provider construction does not fail,
    a listener for tcp, and likewise for udp, is started on the configured
    listen address iff its flag is set, and nothing else is started: the
    goroutines started are exactly those of the enabled transports, in the
    order tcp, udp. *)
Theorem listeners_are_the_enabled_transports (c : Context) :
  (∀ ep opt err,
      NewProvider ep opt ∈ events (run_main' c).2 →
      NewGDNSProvider ep opt ≠ Error err) →
  started (run_main' c).2 = go_statements c
  ∧ (GoServe "tcp" (flag_listen c) ∈ events (run_main' c).2
     ↔ flag_tcp c = true)
  ∧ (GoServe "udp" (flag_listen c) ∈ events (run_main' c).2
     ↔ flag_udp c = true)
  ∧ (∀ protocol address,
       GoServe protocol address ∈ events (run_main' c).2 →
       address = flag_listen c ∧ (protocol = "tcp" ∨ protocol = "udp")).
Proof.
  intros Hok.
  assert (Hev : ∀ protocol address,
    GoServe protocol address ∈ events (run_main' c).2
    ↔ GoServe protocol address
        ∈ go_statements (IP := IP) (Endpoint := Endpoint)
            (Provider := Provider) (Err := Err) c).
  { intros protocol address. split; [by intros []%go_serve_event|].
    revert Hok. rewrite run_main_cases. unfold go_statements.
    destruct (protocols_of c) as [|x xs];
      [intros _ []%elem_of_nil|].
    destruct (NewGDNSProvider _ _) as [provider|err] eqn:Hnew; cbn.
    - intros _ H. rewrite !elem_of_app. right. by do 2 right.
    - intros Hok _. exfalso.
      apply (Hok (flag_endpoint c) (options_of' c) err); [|done].
      rewrite !elem_of_app, !elem_of_cons. auto. }
  split; [|split; [|split]].
  - revert Hok. rewrite run_main_cases.
    destruct (protocols_of c) as [|x xs] eqn:Hp;
      [intros _; unfold go_statements; by rewrite Hp|].
    destruct (NewGDNSProvider _ _) as [provider|err] eqn:Hnew; cbn [snd].
    + intros _. rewrite started_configured. cbn [app].
      rewrite !filter_cons_False by (cbn; done).
      rewrite started_go_statements. unfold go_statements. by rewrite Hp.
    + intros Hok. exfalso.
      apply (Hok (flag_endpoint c) (options_of' c) err); [|done].
      cbn. rewrite !elem_of_app, !elem_of_cons. auto.
  - rewrite Hev, elem_of_go_statements. intuition; discriminate.
  - rewrite Hev, elem_of_go_statements. intuition; discriminate.
  - intros protocol address. rewrite Hev, elem_of_go_statements.
    intuition.
Qed.

(** C8.  The options are built once, by [Action], from the command line:
    a run constructs the provider at most once, with the options
    [options_of c], that is the proxy address, the EDNS string, the two
    negated toggles and the addresses that parse.  Nothing writes [gdnsOPT]
    afterwards: it holds the same value when the spawn loop of [main] is
    through, and in every state of the process from then on. *)
Theorem provider_options_are_never_rewritten (c : Context) ep opt
    (schedule : list Serve.Label) (st : Serve.State GDNSOptions) :
  NewProvider ep opt ∈ events (run_main' c).2 →
  Serve.run (spawning (run_main' c).2) schedule = Some st →
  opt = options_of' c
  ∧ constructions (run_main' c).2 = [NewProvider ep opt]
  ∧ gdnsOPT (run_main' c).2 = opt
  ∧ Serve.gdnsOPT st = opt.
Proof.
  intros Hnew Hrun.
  destruct (new_provider_event c ep opt Hnew) as (Hp & -> & ->).
  apply ServeFacts.run_globals in Hrun as (Hopt & _ & _).
  rewrite Hopt. clear Hopt Hnew. cbn [spawning Serve.init Serve.gdnsOPT].
  rewrite run_main_cases.
  destruct (protocols_of c) as [|x xs] eqn:Hx; [done|].
  assert (Hlogs : ∀ es : list Ev,
    constructions (configured' c es)
    = filter (λ e, is_NewProvider e = true) es).
  { intros es. unfold constructions, configured; cbn [events].
    rewrite filter_app, filter_none; [done|].
    by intros e (lvl & m & ->)%action_events_log. }
  assert (Hgo : filter (λ e : Ev, is_NewProvider e = true) (go_statements c)
                = []).
  { apply filter_none. unfold go_statements.
    by intros e (? & -> & _)%list_elem_of_fmap. }
  destruct (NewGDNSProvider _ _) as [provider|err]; cbn [snd];
    rewrite Hlogs; cbn [app];
    rewrite filter_cons_True by done;
    rewrite filter_cons_False by (cbn; done);
    rewrite ?Hgo; done.
Qed.

(** C9.  With neither [tcp] nor [udp] given, the process shows the help
    text and exits with status 0; that is all it does: no provider is
    constructed and no listener is started. *)
Theorem no_transport_shows_help_and_exits (c : Context) :
  flag_tcp c = false → flag_udp c = false →
  (run_main' c).1 = Exit 0
  ∧ events (run_main' c).2 = [ShowAppHelp]
  ∧ (∀ ep opt, NewProvider ep opt ∉ events (run_main' c).2)
  ∧ started (run_main' c).2 = [].
Proof.
  intros Ht Hu. rewrite run_main_cases.
  assert (Hp : protocols_of c = []) by (by apply protocols_of_nil).
  rewrite Hp. cbn. repeat split.
  intros ep opt. rewrite list_elem_of_singleton. done.
Qed.

End BootstrapFacts.

(** * Facts about the query path *)

Module GdnsFacts.
Import Gdns.

Section Engine.

Context {IP EncodedRequest Bytes : Type}.
Variable static_ips : list IP.
Variable lookup : option (list IP).
Variable encode : InboundQuery → EncodedRequest.
Variable send : EncodedRequest → IP → option Bytes.
Variable duration : EncodedRequest → IP → nat.
Variable decode : Bytes → InboundQuery → option UpstreamAnswer.
Variable deadline : nat.

Abbreviation resolve_endpoint' := (resolve_endpoint static_ips lookup).
Abbreviation try_addresses' := (try_addresses send duration).
Abbreviation provider_resolve' :=
  (provider_resolve static_ips lookup encode send duration decode).
Abbreviation Handle' :=
  (Handle static_ips lookup encode send duration decode deadline).
Abbreviation written' :=
  (written static_ips lookup encode send duration decode deadline).

(** The response of the provider carries the identity of the query. *)
Lemma provider_resolve_echo q cache r t cache' :
  provider_resolve' q cache = (Ok r, t, cache') →
  out_TransactionID r = TransactionID q ∧ out_Questions r = Questions q.
Proof.
  unfold provider_resolve.
  destruct (resolve_endpoint' cache) as [[addrs|e] c1]; [|done].
  destruct (try_addresses' (encode q) addrs) as [[raw|] t1]; [|done].
  destruct (decode raw q) as [a|]; [|done].
  by intros [= <- _ _].
Qed.

(** When no address answers, the transport has no result. *)
Lemma try_addresses_all_fail req addrs :
  (∀ a, a ∈ addrs → send req a = None) →
  (try_addresses' req addrs).1 = None.
Proof.
  induction addrs as [|a addrs IH]; intros Hall; [done|].
  cbn [try_addresses]. rewrite (Hall a) by left.
  destruct (try_addresses' req addrs) as [r t] eqn:Ht. cbn in *.
  apply IH. intros b Hb. apply Hall. by right.
Qed.

(** The handler ends in one of its two final states, and in [Failed]
    only with the synthesized failure. *)
Lemma Handle_final q cache :
  ((Handle' q cache).1.2 = Answered ∨ (Handle' q cache).1.2 = Failed)
  ∧ ((Handle' q cache).1.2 = Failed →
     (Handle' q cache).1.1 = servfail q).
Proof.
  unfold Handle. repeat case_match; cbn; (split; [auto|done]).
Qed.

(** What is written is the synthesized failure or the response of the
    provider. *)
Lemma written_cases q cache :
  written' q cache = servfail q
  ∨ ∃ r t cache', provider_resolve' q cache = (Ok r, t, cache')
                  ∧ written' q cache = r.
Proof.
  unfold written, Handle. repeat case_match; cbn; eauto 10.
Qed.

(** C3.  Whatever the network and the upstream do (every resolver,
    transport, decoder and deadline), and for every inbound message, the
    response written has the transaction ID and the question section of
    the query. *)
Theorem response_echoes_id_and_question q cache :
  out_TransactionID
    (written static_ips lookup encode send duration decode deadline q cache)
  = TransactionID q
  ∧ out_Questions
      (written static_ips lookup encode send duration decode deadline q cache)
    = Questions q.
Proof.
  destruct (written_cases q cache) as [->|(r & t & c1 & Hp & ->)].
  - done.
  - by eapply provider_resolve_echo.
Qed.

(** C4.  For a query with one question: whenever the provider surfaces
    an error, whichever of the three, and whenever the deadline has
    expired, the handler ends in [Failed] and writes the synthesized
    response, with response code SERVFAIL, the transaction ID and the
    question of the query and no records; this is so in particular when
    the endpoint cannot be resolved, when every address fails in the
    transport, and when the answer is malformed.  The handler always
    ends in one of its final states with a response written, and a
    failure reaches the client as that response only. *)
Theorem provider_error_is_answered_with_servfail q question cache :
  Questions q = [question] →
  (∀ e t cache',
      provider_resolve' q cache = (Error e, t, cache') →
      Handle' q cache = (servfail q, Failed, cache'))
  ∧ (∀ r t cache',
      provider_resolve' q cache = (r, t, cache') →
      expired deadline t = true →
      Handle' q cache = (servfail q, Failed, cache'))
  ∧ (∀ e cache',
      resolve_endpoint' cache = (Error e, cache') →
      e = EndpointUnresolvable ∧ written' q cache = servfail q)
  ∧ (∀ addrs cache',
      resolve_endpoint' cache = (Ok addrs, cache') →
      (∀ a, a ∈ addrs → send (encode q) a = None) →
      (provider_resolve' q cache).1.1 = Error TransportFailure
      ∧ written' q cache = servfail q)
  ∧ (∀ addrs cache' raw t,
      resolve_endpoint' cache = (Ok addrs, cache') →
      try_addresses' (encode q) addrs = (Some raw, t) →
      decode raw q = None →
      (provider_resolve' q cache).1.1 = Error MalformedUpstreamResponse
      ∧ written' q cache = servfail q)
  ∧ ((Handle' q cache).1.2 = Answered ∨ (Handle' q cache).1.2 = Failed)
  ∧ ((Handle' q cache).1.2 = Failed → written' q cache = servfail q)
  ∧ out_rcode (servfail q) = SERVFAIL
  ∧ out_TransactionID (servfail q) = TransactionID q
  ∧ out_Questions (servfail q) = Questions q
  ∧ out_records (servfail q) = [].
Proof.
  intros Hq. pose proof (Handle_final q cache) as [Hfinal Hfailed].
  split_and!; try done.
  - intros e t cache' Hp. unfold Handle. by rewrite Hq, Hp.
  - intros r t cache' Hp Ht. unfold Handle. rewrite Hq, Hp.
    destruct r; [by rewrite Ht|done].
  - intros e cache' Hr. split.
    + revert Hr. unfold resolve_endpoint.
      destruct static_ips; [|done]. destruct cache; [done|].
      destruct lookup as [[|? ?]|]; by intros [= <- _].
    + unfold written, Handle, provider_resolve. by rewrite Hq, Hr.
  - intros addrs cache' Hr Hall.
    pose proof (try_addresses_all_fail (encode q) addrs Hall) as Hnone.
    unfold written, Handle, provider_resolve. rewrite Hq, Hr.
    destruct (try_addresses' (encode q) addrs) as [r t]. cbn in Hnone.
    by rewrite Hnone.
  - intros addrs cache' raw t Hr Ht Hd.
    unfold written, Handle, provider_resolve.
    by rewrite Hq, Hr, Ht, Hd.
Qed.

End Engine.

End GdnsFacts.

(** * The theorems on concrete runs *)

(** The run [--tcp --endpoint-ips bogus --endpoint-ips 8.8.8.8
    --dns-servers 8.8.4.4 --dns-servers nowhere]: two static addresses do
    not parse, and yet the process does not end during startup: it starts
    the tcp listener.  The claim that an unparsable static address is fatal
    fails on this run. *)
Lemma unparsable_address_is_not_fatal :
  has_unparsable_address Sample.ParseIP Sample.ParseEndpoint
    Sample.tcp_with_bad_ip
  ∧ ¬ ∃ status,
        exits_before_listening (Sample.run Sample.tcp_with_bad_ip) status.
Proof.
  split.
  - left. exists "bogus". split; [|reflexivity]. by left.
  - intros [status [Hexit _]]. vm_compute in Hexit. discriminate.
Qed.

Lemma unparsable_address_is_logged_and_skipped_witness :
  protocols_of Sample.tcp_with_bad_ip ≠ []
  ∧ ∃ p : @Process Sample.IP Sample.Endpoint Sample.Provider Sample.Err,
      Action Sample.ParseIP Sample.ParseEndpoint Sample.tcp_with_bad_ip
        process_start = (Return tt, p)
      ∧ EndpointIPs (gdnsOPT p) = [[8; 8; 8; 8]]
      ∧ DNSServers (gdnsOPT p) = [([8; 8; 4; 4], 53)]
      ∧ Log LERROR (UnableToParseIP "bogus") ∈ events p
      ∧ (Sample.run Sample.tcp_with_bad_ip).1 = Return tt
      ∧ started (Sample.run Sample.tcp_with_bad_ip).2
        = [GoServe "tcp" ":5300"].
Proof.
  assert (Hp : protocols_of Sample.tcp_with_bad_ip ≠ []) by done.
  split; [exact Hp|].
  destruct (unparsable_address_is_logged_and_skipped
              Sample.ParseIP Sample.ParseEndpoint Sample.NewGDNSProvider
              Sample.tcp_with_bad_ip Hp)
    as (p & HA & Hips & Hdns & Hlog & _ & Hrun).
  exists p. split; [exact HA|].
  split; [rewrite Hips; reflexivity|].
  split; [rewrite Hdns; reflexivity|].
  split; [apply Hlog; [by left|reflexivity]|].
  vm_compute in HA. injection HA as <-.
  destruct (Hrun {| Sample.endpoint := "https://dns.google.com/resolve";
                    Sample.options :=
                      options_of Sample.ParseIP Sample.ParseEndpoint
                        Sample.tcp_with_bad_ip |} eq_refl)
    as (Hret & Hstarted & _).
  split; [exact Hret|]. etransitivity; [exact Hstarted|reflexivity].
Defined.

Lemma provider_error_is_the_only_startup_failure_witness :
  NewProvider ":" (options_of Sample.ParseIP Sample.ParseEndpoint
                     Sample.bad_endpoint)
    ∈ events (Sample.run Sample.bad_endpoint).2
  ∧ Sample.NewGDNSProvider ":"
      (options_of Sample.ParseIP Sample.ParseEndpoint Sample.bad_endpoint)
    = Error "InvalidEndpointURL"
  ∧ exits_before_listening (Sample.run Sample.bad_endpoint) 1
  ∧ Fatal "InvalidEndpointURL" ∈ events (Sample.run Sample.bad_endpoint).2.
Proof.
  assert (Hnew : NewProvider ":" (options_of Sample.ParseIP
                    Sample.ParseEndpoint Sample.bad_endpoint)
                 ∈ events (Sample.run Sample.bad_endpoint).2).
  { vm_compute. repeat constructor. }
  split; [exact Hnew|]. split; [reflexivity|].
  exact (proj1 (provider_error_is_the_only_startup_failure
                  Sample.ParseIP Sample.ParseEndpoint Sample.NewGDNSProvider
                  Sample.bad_endpoint)
               ":" _ "InvalidEndpointURL" Hnew eq_refl).
Defined.

Lemma provider_options_negate_the_toggles_witness :
  let opt := options_of Sample.ParseIP Sample.ParseEndpoint
               Sample.both_protocols in
  NewProvider "https://dns.google.com/resolve" opt
    ∈ events (Sample.run Sample.both_protocols).2
  ∧ Pad opt = false ∧ Secure opt = true.
Proof.
  intros opt.
  assert (Hnew : NewProvider "https://dns.google.com/resolve" opt
                 ∈ events (Sample.run Sample.both_protocols).2).
  { vm_compute. repeat constructor. }
  split; [exact Hnew|].
  destruct (provider_options_negate_the_toggles
              Sample.ParseIP Sample.ParseEndpoint Sample.NewGDNSProvider
              Sample.both_protocols _ opt Hnew) as (HP & HS & _).
  split; [exact HP|exact HS].
Defined.

(** The run [--tcp --udp --endpoint :]: the tcp flag is set, the provider
    construction fails, and no listener is started.  The claim that a
    listener is started iff its flag is set fails on this run. *)
Lemma flag_set_but_no_listener_started :
  ¬ (GoServe "tcp" (flag_listen Sample.bad_endpoint)
       ∈ events (Sample.run Sample.bad_endpoint).2
     ↔ flag_tcp Sample.bad_endpoint = true).
Proof.
  intros [_ H]. specialize (H eq_refl).
  apply go_serve_event in H as [_ [provider Hprovider]].
  vm_compute in Hprovider. discriminate.
Qed.

Lemma listeners_are_the_enabled_transports_witness :
  (∀ ep opt err,
      NewProvider ep opt ∈ events (Sample.run Sample.both_protocols).2 →
      Sample.NewGDNSProvider ep opt ≠ Error err)
  ∧ started (Sample.run Sample.both_protocols).2
    = [GoServe "tcp" "127.0.0.1:53"; GoServe "udp" "127.0.0.1:53"].
Proof.
  assert (Hok : ∀ ep opt err,
      NewProvider ep opt ∈ events (Sample.run Sample.both_protocols).2 →
      Sample.NewGDNSProvider ep opt ≠ Error err).
  { intros ep opt err Hin.
    apply new_provider_event in Hin as (_ & -> & ->). done. }
  split; [exact Hok|].
  destruct (listeners_are_the_enabled_transports
              Sample.ParseIP Sample.ParseEndpoint Sample.NewGDNSProvider
              Sample.both_protocols Hok) as (Hstarted & _).
  etransitivity; [exact Hstarted|reflexivity].
Defined.

Lemma no_transport_shows_help_and_exits_witness :
  flag_tcp no_flags = false ∧ flag_udp no_flags = false
  ∧ (Sample.run no_flags).1 = Exit 0
  ∧ events (Sample.run no_flags).2 = [ShowAppHelp].
Proof.
  split; [reflexivity|]. split; [reflexivity|].
  destruct (no_transport_shows_help_and_exits
              Sample.ParseIP Sample.ParseEndpoint Sample.NewGDNSProvider
              no_flags eq_refl eq_refl) as (Hexit & Hevents & _).
  split; [exact Hexit|exact Hevents].
Defined.

Lemma provider_options_are_never_rewritten_witness :
  let opt := options_of Sample.ParseIP Sample.ParseEndpoint
               Sample.both_protocols in
  let p := (Sample.run Sample.both_protocols).2 in
  NewProvider "https://dns.google.com/resolve" opt ∈ events p
  ∧ ∃ st, Serve.run (spawning p) Sample.interrupted = Some st
          ∧ Serve.returned st = true
          ∧ constructions p = [NewProvider "https://dns.google.com/resolve" opt]
          ∧ gdnsOPT p = opt
          ∧ Serve.gdnsOPT st = opt.
Proof.
  intros opt p.
  assert (Hnew : NewProvider "https://dns.google.com/resolve" opt ∈ events p).
  { vm_compute. repeat constructor. }
  split; [exact Hnew|].
  eexists. split; [vm_compute; reflexivity|]. split; [reflexivity|].
  eapply (provider_options_are_never_rewritten
            Sample.ParseIP Sample.ParseEndpoint Sample.NewGDNSProvider
            Sample.both_protocols _ opt Sample.interrupted);
    [exact Hnew|vm_compute; reflexivity].
Defined.

Lemma waiting_listeners_shut_down_before_exit_witness :
  (∃ st, Serve.run (Serve.init tt ["tcp"; "udp"] ":5300") Sample.both_serving
         = Some st
     ∧ Serve.returned st = false
     ∧ ∃ st', Serve.step st (Serve.OsSignal Serve.SIGINT) = Some st'
         ∧ ∀ i l, Serve.listeners st !! i = Some l →
             Serve.spc l = Serve.SWaiting →
             Serve.listeners st' !! i
             = Some (Serve.set_spc (Serve.SGotSignal Serve.SIGINT) l))
  ∧ (∃ st, Serve.run (Serve.init tt ["tcp"; "udp"] ":5300") Sample.interrupted
           = Some st
       ∧ Serve.returned st = true
       ∧ Serve.notifications Sample.interrupted = 2%nat
       ∧ ∀ i protocol, ["tcp"; "udp"] !! i = Some protocol →
           ∃ l, Serve.listeners st !! i = Some l ∧ Serve.net l = protocol
                ∧ Serve.spc l = Serve.SFinished
                ∧ Serve.shutdowns l = 1%nat).
Proof.
  split.
  - eexists. split; [vm_compute; reflexivity|]. split; [reflexivity|].
    match goal with
    | |- ∃ st', Serve.step ?st _ = _ ∧ _ =>
        assert (Hrun : Serve.run (Serve.init tt ["tcp"; "udp"] ":5300")
                         Sample.both_serving = Some st)
          by (vm_compute; reflexivity);
        exact (proj1 (ServeFacts.waiting_listeners_shut_down_before_exit
                        tt ["tcp"; "udp"] ":5300" Sample.both_serving st Hrun)
                     eq_refl Serve.SIGINT 0%nat _ eq_refl eq_refl)
    end.
  - eexists. split; [vm_compute; reflexivity|]. split; [reflexivity|].
    match goal with
    | |- Serve.notifications _ = _ ∧ ∀ i protocol, _ → ∃ l,
           Serve.listeners ?st !! i = _ ∧ _ =>
        assert (Hrun : Serve.run (Serve.init tt ["tcp"; "udp"] ":5300")
                         Sample.interrupted = Some st)
          by (vm_compute; reflexivity);
        exact (proj1 (proj2 (proj2 (proj2
                 (ServeFacts.waiting_listeners_shut_down_before_exit
                    tt ["tcp"; "udp"] ":5300" Sample.interrupted st Hrun))))
                 eq_refl)
    end.
Defined.

Lemma listen_failure_stops_its_own_listener_witness :
  let tcp := {| Serve.net := "tcp"; Serve.addr := ":5300";
                Serve.spc := Serve.SSpawned; Serve.lpc := Serve.LListening;
                Serve.shutdowns := 0 |} in
  ∃ st, Serve.run (Serve.init tt ["tcp"; "udp"] ":5300") Sample.tcp_spawned
        = Some st
    ∧ Serve.returned st = false
    ∧ Serve.listeners st !! 0%nat = Some tcp
    ∧ ∃ st3 l3,
        Serve.run st (Serve.failure_path 0 tcp true) = Some st3
        ∧ Serve.listeners st3 = <[0%nat := l3]> (Serve.listeners st)
        ∧ Serve.net l3 = "tcp" ∧ Serve.addr l3 = ":5300"
        ∧ Serve.spc l3 = Serve.SShutdownDone
        ∧ Serve.lpc l3 = Serve.LReturned
        ∧ Serve.shutdowns l3 = 1%nat
        ∧ Serve.returned st3 = false
        ∧ Serve.received st3 = Serve.received st
        ∧ ∀ j, j ≠ 0%nat →
            Serve.listeners st3 !! j = Serve.listeners st !! j.
Proof.
  intros tcp.
  eexists. split; [vm_compute; reflexivity|]. split; [reflexivity|].
  split; [reflexivity|].
  match goal with
  | |- ∃ st3 l3, Serve.run ?st _ = _ ∧ _ =>
      assert (Hrun : Serve.run (Serve.init tt ["tcp"; "udp"] ":5300")
                       Sample.tcp_spawned = Some st)
        by (vm_compute; reflexivity);
      exact (proj1 (proj2
               (ServeFacts.listen_failure_stops_its_own_listener
                  tt ["tcp"; "udp"] ":5300" Sample.tcp_spawned st 0 tcp
                  Hrun eq_refl eq_refl eq_refl eq_refl)) true)
  end.
Defined.

Lemma provider_error_is_answered_with_servfail_witness :
  let q := Sample.example_query in
  (∃ question, Gdns.Questions q = [question])
  ∧ (∀ a, a ∈ Sample.two_addresses →
       Sample.send_none (Sample.encode q) a = None)
  ∧ Gdns.written Sample.two_addresses None Sample.encode Sample.send_none
      Sample.three_units Sample.decode 10 q None
    = Gdns.servfail q
  ∧ Gdns.expired 5 6 = true
  ∧ Gdns.Handle Sample.two_addresses None Sample.encode Sample.send_second
      Sample.three_units Sample.decode 5 q None
    = (Gdns.servfail q, Gdns.Failed, None)
  ∧ Gdns.out_rcode (Gdns.servfail q) = 2.
Proof.
  intros q.
  split; [eexists; reflexivity|]. split; [reflexivity|].
  split; [|split; [reflexivity|split]].
  - refine (proj2 (proj1 (proj2 (proj2 (proj2
              (GdnsFacts.provider_error_is_answered_with_servfail
                 Sample.two_addresses None Sample.encode Sample.send_none
                 Sample.three_units Sample.decode 10 q _ None eq_refl))))
              Sample.two_addresses None eq_refl _)).
    reflexivity.
  - refine (proj1 (proj2
              (GdnsFacts.provider_error_is_answered_with_servfail
                 Sample.two_addresses None Sample.encode Sample.send_second
                 Sample.three_units Sample.decode 5 q _ None eq_refl))
              _ 6%nat None _ eq_refl).
    vm_compute; reflexivity.
  - reflexivity.
Defined.

(** The answered case on the example engine: the second address answers
    within the deadline, and the response carries the record of the
    upstream answer under the identity of the query. *)
Example example_query_is_answered :
  Gdns.Handle Sample.two_addresses None Sample.encode Sample.send_second
    Sample.three_units Sample.decode 10 Sample.example_query None
  = (Gdns.assemble Sample.example_query
       {| Gdns.ua_rcode := 0; Gdns.ua_flags := 0;
          Gdns.ua_records :=
            [{| Gdns.rr_name := "example.com."; Gdns.rr_type := 1;
                Gdns.rr_class := 1; Gdns.rr_ttl := 300;
                Gdns.rr_data := "93.184.216.34" |}] |},
     Gdns.Answered, None).
Proof. vm_compute. reflexivity. Qed.

(** * More facts about the listeners *)

Module ServeMore.
Import Serve Plans ServeFacts.

Section Steps.

Context {Options : Type}.
Implicit Types st : State Options.

Lemma set_listeners_id st : set_listeners (listeners st) st = st.
Proof. by destruct st. Qed.

Lemma set_listeners_twice st ls1 ls2 :
  set_listeners ls2 (set_listeners ls1 st) = set_listeners ls2 st.
Proof. done. Qed.

Lemma step_ServeStart st i l :
  returned st = false → listeners st !! i = Some l → spc l = SEntry →
  step st (ServeStart i)
  = Some (set_listeners (<[i := set_spc SNotified l]> (listeners st)) st).
Proof.
  intros Hret Hl Hspc.
  eapply step_on_listener;
    [intros st0 H0; unfold step; by rewrite H0|done..|].
  by apply bool_decide_eq_true_2.
Qed.

Lemma step_ServeGo st i l :
  returned st = false → listeners st !! i = Some l → spc l = SNotified →
  step st (ServeGo i)
  = Some (set_listeners
            (<[i := set_lpc LListening (set_spc SSpawned l)]> (listeners st))
            st).
Proof.
  intros Hret Hl Hspc.
  eapply step_on_listener with
    (f := λ l, set_lpc LListening (set_spc SSpawned l));
    [intros st0 H0; unfold step; by rewrite H0|done..|].
  by apply bool_decide_eq_true_2.
Qed.

(** The serve loop of listener [i] runs up to its receive. *)
Lemma run_reach_receive st i l :
  returned st = false → listeners st !! i = Some l →
  run st (reach_receive i l)
  = Some (set_listeners (<[i := at_receive l]> (listeners st)) st).
Proof.
  intros Hret Hl.
  assert (Hlt : (i < length (listeners st))%nat) by (by eapply lookup_lt_Some).
  unfold reach_receive, at_receive. destruct (spc l) eqn:Hspc; cbn [run].
  - rewrite (step_ServeStart st i l) by done. cbn [mbind option_bind].
    rewrite (step_ServeGo _ i (set_spc SNotified l));
      [|done|by apply list_lookup_insert_eq|done].
    cbn [mbind option_bind].
    rewrite (step_ServeWait _ i
               (set_lpc LListening (set_spc SSpawned (set_spc SNotified l))));
      [|done| |done].
    + cbn [mbind option_bind]. f_equal.
      rewrite !set_listeners_twice.
      cbn [set_listeners listeners]. by rewrite !list_insert_insert_eq.
    + cbn [set_listeners listeners]. rewrite list_insert_insert_eq.
      by apply list_lookup_insert_eq.
  - rewrite (step_ServeGo st i l) by done. cbn [mbind option_bind].
    rewrite (step_ServeWait _ i (set_lpc LListening (set_spc SSpawned l)));
      [|done|by apply list_lookup_insert_eq|done].
    cbn [mbind option_bind]. f_equal.
    cbn [set_listeners listeners]. by rewrite !list_insert_insert_eq.
  - rewrite (step_ServeWait st i l) by done. done.
  - by rewrite list_insert_id, set_listeners_id.
  - by rewrite list_insert_id, set_listeners_id.
  - by rewrite list_insert_id, set_listeners_id.
  - by rewrite list_insert_id, set_listeners_id.
Qed.

(** The serve loops from position [k] on run up to their receives. *)
Lemma run_reach_receive_from n : ∀ st k,
  returned st = false → length (listeners st) = (k + n)%nat →
  ∃ ls, run st (reach_receive_from k (drop k (listeners st)))
        = Some (set_listeners ls st)
    ∧ length ls = length (listeners st)
    ∧ (∀ j, (j < k)%nat → ls !! j = listeners st !! j)
    ∧ (∀ j, (k ≤ j)%nat → ls !! j = at_receive <$> listeners st !! j).
Proof.
  induction n as [|n IH]; intros st k Hret Hlen.
  - rewrite drop_ge by lia. exists (listeners st). cbn.
    rewrite set_listeners_id. split_and!; try done.
    intros j Hj. by rewrite lookup_ge_None_2 by lia.
  - destruct (lookup_lt_is_Some_2 (listeners st) k) as [l Hl]; [lia|].
    rewrite (drop_S _ _ _ Hl). cbn [reach_receive_from]. rewrite run_app.
    rewrite (run_reach_receive st k l Hret Hl). cbn [mbind option_bind].
    set (st1 := set_listeners (<[k:=at_receive l]> (listeners st)) st).
    assert (Hdrop : drop (S k) (listeners st) = drop (S k) (listeners st1)).
    { unfold st1. cbn [set_listeners listeners].
      by rewrite drop_insert_lt by lia. }
    rewrite Hdrop.
    destruct (IH st1 (S k)) as (ls & Hrun & Hlen' & Hlow & Hhigh).
    { done. }
    { unfold st1. cbn [set_listeners listeners]. rewrite length_insert. lia. }
    exists ls. rewrite Hrun. unfold st1 in *.
    cbn [set_listeners listeners] in *. rewrite length_insert in Hlen'.
    split; [done|]. split; [done|]. split.
    + intros j Hj. rewrite Hlow by lia.
      by rewrite list_lookup_insert_ne by lia.
    + intros j Hj. destruct (decide (j = k)) as [->|Hne].
      * rewrite Hlow by lia. rewrite list_lookup_insert_eq by lia.
        by rewrite Hl.
      * rewrite Hhigh by lia. by rewrite list_lookup_insert_ne by lia.
Qed.

Lemma all_listeners_MainGo st protocol :
  listenProtocols st !! length (listeners st) = Some protocol →
  all_listeners
    (set_listeners
       (listeners st ++ [new_listener protocol (listenAddress st)]) st)
  = all_listeners st.
Proof.
  intros Hp. unfold all_listeners. cbn [set_listeners listeners
    listenProtocols listenAddress].
  rewrite length_app. cbn [length]. rewrite Nat.add_1_r.
  rewrite (drop_S _ _ _ Hp). rewrite fmap_cons.
  by rewrite <- app_assoc.
Qed.

(** The spawn loop runs to its end. *)
Lemma run_spawn_rest k : ∀ st,
  returned st = false →
  (length (listeners st) + k = length (listenProtocols st))%nat →
  run st (replicate k MainGo) = Some (set_listeners (all_listeners st) st).
Proof.
  induction k as [|k IH]; intros st Hret Hlen.
  - cbn. unfold all_listeners. rewrite drop_ge by lia. cbn.
    by rewrite app_nil_r, set_listeners_id.
  - destruct (lookup_lt_is_Some_2 (listenProtocols st)
                (length (listeners st))) as [protocol Hp]; [lia|].
    cbn [replicate run]. unfold step at 1. rewrite Hret, Hp.
    cbn [mbind option_bind].
    rewrite IH.
    + by rewrite all_listeners_MainGo.
    + done.
    + cbn [set_listeners listeners listenProtocols]. rewrite length_app.
      cbn. lia.
Qed.

Lemma finished_at_receive l : finished (at_receive l) = finished l.
Proof.
  unfold at_receive, finished. destruct (spc l) eqn:Hspc; cbn;
    rewrite ?Hspc; rewrite ?bool_decide_eq_false_2 by done; done.
Qed.

Lemma count_finished_fmap (f : Listener → Listener) (ls : list Listener) :
  (∀ l, finished (f l) = finished l) →
  count_finished (f <$> ls) = count_finished ls.
Proof.
  intros Hf. induction ls as [|l ls IH]; [done|].
  by rewrite fmap_cons, !count_finished_cons, IH, Hf.
Qed.

Lemma count_finished_all_listeners st :
  count_finished (all_listeners st) = count_finished (listeners st).
Proof.
  unfold all_listeners. rewrite count_finished_app.
  induction (drop _ _) as [|p ps IH]; [cbn; lia|].
  rewrite fmap_cons, count_finished_cons.
  assert (finished (new_listener p (listenAddress st)) = false) as ->
    by (by apply bool_decide_eq_false_2).
  done.
Qed.

(** The signal is relayed once every serve call is past its entry. *)
Lemma run_the_signal st s :
  returned st = false →
  (∀ i l, listeners st !! i = Some l → spc l ≠ SEntry) →
  run st (the_signal s (listeners st))
  = Some (set_listeners (deliver s <$> listeners st) st).
Proof.
  intros Hret Hall. destruct (listeners st) as [|l ls] eqn:Hls.
  - cbn. f_equal. destruct st; cbn in *. by rewrite Hls.
  - cbn [the_signal run]. rewrite <- Hls.
    assert (Hstep : step st (OsSignal s)
                    = Some (set_listeners (deliver s <$> listeners st) st)).
    { apply step_OsSignal. split_and!; [done| |done].
      apply notify_in_force_true. exists 0%nat, l.
      split; [by rewrite Hls|]. by apply (Hall 0%nat). }
    by rewrite Hstep.
Qed.

Lemma the_signal_fmap s (f : Listener → Listener) ls :
  the_signal s (f <$> ls) = the_signal s ls.
Proof. by destruct ls. Qed.

Lemma spc_at_receive l : spc (at_receive l) ≠ SEntry.
Proof. unfold at_receive. by destruct (spc l) eqn:He; cbn; rewrite ?He. Qed.

(** Of two signals in a row the serve loop takes the first. *)
Lemma deliver_deliver s s' l : deliver s' (deliver s l) = deliver s l.
Proof.
  unfold deliver. destruct (bool_decide (spc l = SWaiting)) eqn:Hw.
  - cbn. by rewrite bool_decide_eq_false_2.
  - by rewrite Hw.
Qed.

Lemma signalled_deliver_at_receive s l :
  signalled (deliver s (at_receive l)) = true.
Proof.
  unfold deliver, at_receive, signalled.
  destruct (spc l) eqn:Hspc; cbn; rewrite ?Hspc;
    rewrite ?bool_decide_eq_true_2 by done;
    rewrite ?bool_decide_eq_false_2 by done; cbn; by rewrite ?Hspc.
Qed.

End Steps.

Section Traces.

Context {Options : Type}.
Implicit Types st : State Options.

Lemma signal_sent_app pre post :
  signal_sent pre → signal_sent (pre ++ post).
Proof. intros [s Hs]. exists s. apply elem_of_app. by left. Qed.

Lemma signal_sent_dec schedule :
  signal_sent schedule ∨ ¬ signal_sent schedule.
Proof.
  induction schedule as [|lb rest [IH|IH]].
  - right. intros [s Hs]. by apply elem_of_nil in Hs.
  - left. destruct IH as [s Hs]. exists s. by right.
  - destruct lb; try (right; intros [s [Hs|Hs]%elem_of_cons];
      [done|apply IH; by exists s]).
    left. eexists. by left.
Qed.

(** A step of listener [i] keeps the trace an explanation of the state. *)
Lemma explained_update pre st i l l' lb :
  explained pre st → listeners st !! i = Some l →
  (signalled l' = true →
     signalled l = true ∨ lb = SelfTerm i) →
  (lpc l' = LFailed → lpc l = LFailed ∨ lb = ListenError i) →
  (∀ j, lb = SelfTerm j → j = i ∧ lpc l = LFailed) →
  explained (pre ++ [lb]) (set_listeners (<[i:=l']> (listeners st)) st).
Proof.
  intros [H1 H2] Hl Hsig Hlpc Hself. split.
  - intros j lj. cbn [set_listeners listeners].
    destruct (decide (i = j)) as [<-|Hne].
    + rewrite list_lookup_insert_eq by (by eapply lookup_lt_Some).
      intros [= <-]. destruct (H1 i l Hl) as [Hs Hf]. split.
      * intros [Hold| ->]%Hsig.
        -- destruct (Hs Hold) as [?|?]; [left; by apply signal_sent_app|].
           right. apply elem_of_app. by left.
        -- right. apply elem_of_app. right. by left.
      * intros [Hold| ->]%Hlpc; apply elem_of_app;
          [left; by apply Hf|right; by left].
    + rewrite list_lookup_insert_ne by done. intros Hj.
      destruct (H1 j lj Hj) as [Hs Hf]. split.
      * intros [?|?]%Hs; [left; by apply signal_sent_app|].
        right. apply elem_of_app. by left.
      * intros ?%Hf. apply elem_of_app. by left.
  - intros j [Hj|Hj%list_elem_of_singleton]%elem_of_app.
    + apply elem_of_app. left. by apply H2.
    + destruct (Hself j (eq_sym Hj)) as [-> Hfail].
      apply elem_of_app. left. by apply (H1 i l Hl).
Qed.

(** A step that leaves the listeners alone, or only adds one. *)
Lemma explained_grow pre st lb ls :
  explained pre st → (∀ j, lb ≠ SelfTerm j) →
  (∀ i l, ls !! i = Some l →
     listeners st !! i = Some l
     ∨ (signalled l = false ∧ lpc l ≠ LFailed)
     ∨ (∃ l0 s, listeners st !! i = Some l0 ∧ lb = OsSignal s
                ∧ lpc l = lpc l0)) →
  explained (pre ++ [lb]) (set_listeners ls st).
Proof.
  intros [H1 H2] Hlb Hls. split.
  - intros i l Hl. cbn [set_listeners listeners] in Hl.
    destruct (Hls i l Hl) as [Hold|[[Hs Hf]|(l0 & s & Hold & -> & Hlpc)]].
    + destruct (H1 i l Hold) as [Hs Hf]. split.
      * intros [?|?]%Hs; [left; by apply signal_sent_app|].
        right. apply elem_of_app. by left.
      * intros ?%Hf. apply elem_of_app. by left.
    + split; [by rewrite Hs|done].
    + split.
      * intros _. left. exists s. apply elem_of_app. right. by left.
      * rewrite Hlpc. intros ?%(proj2 (H1 i l0 Hold)).
        apply elem_of_app. by left.
  - intros j [Hj|Hj%list_elem_of_singleton]%elem_of_app.
    + apply elem_of_app. left. by apply H2.
    + by destruct (Hlb j).
Qed.

Lemma explained_step pre st lb st' :
  explained pre st → step st lb = Some st' → explained (pre ++ [lb]) st'.
Proof.
  intros Hex. unfold step. destruct (returned st); [done|].
  destruct lb as [|i|i|i|i|i|i|s|i err|i|].
  - destruct (listenProtocols st !! _) as [protocol|]; cbn; [|done].
    intros [= <-]. apply explained_grow; [done|done|].
    intros i l [Hl|[_ Hl]]%lookup_app_Some; [by left|].
    apply list_lookup_singleton_Some in Hl as [_ <-]. right. left. done.
  - intros (l & Hl & He & ->)%on_listener_Some.
    apply bool_decide_eq_true in He.
    eapply explained_update; [done..| | |done].
    + unfold signalled. cbn. done.
    + cbn. auto.
  - intros (l & Hl & He & ->)%on_listener_Some.
    apply bool_decide_eq_true in He.
    eapply explained_update; [done..| | |done].
    + unfold signalled. cbn. done.
    + cbn. done.
  - intros (l & Hl & He & ->)%on_listener_Some.
    apply bool_decide_eq_true in He.
    eapply explained_update; [done..| | |done].
    + unfold signalled. cbn. done.
    + cbn. auto.
  - intros (l & Hl & He & ->)%on_listener_Some.
    eapply explained_update; [done..| | |done].
    + unfold signalled. cbn. auto.
    + auto.
  - intros (l & Hl & He & ->)%on_listener_Some.
    eapply explained_update; [done..| | |done].
    + unfold signalled. cbn. auto.
    + cbn. done.
  - intros (l & Hl & He & ->)%on_listener_Some.
    apply andb_true_iff in He as [He1 He2].
    apply bool_decide_eq_true in He1, He2.
    eapply explained_update; [done..| | |].
    + auto.
    + cbn. done.
    + by intros j [= <-].
  - destruct (notify_in_force st); [|done].
    intros [= <-]. apply explained_grow; [done|done|].
    intros i l. rewrite list_lookup_fmap.
    destruct (listeners st !! i) as [l0|] eqn:Hl0; [|done].
    intros [= <-]. unfold deliver. case_bool_decide; [|by left].
    right. right. exists l0, s. done.
  - intros (l & Hl & He & ->)%on_listener_Some.
    eapply explained_update; [done..| | |done].
    + unfold signalled. destruct (spc l); try done. auto.
    + cbn. auto.
  - destruct (all_spawned st && _); [|done].
    destruct (on_listener _ _ _ _) as [st1|] eqn:Hon; cbn; [|done].
    intros [= <-].
    apply on_listener_Some in Hon as (l & Hl & He & ->).
    apply bool_decide_eq_true in He.
    eapply (explained_update pre st i l (set_spc SFinished l) (Done i));
      [done..| | |done].
    + unfold signalled. rewrite He. auto.
    + cbn. auto.
  - destruct (all_spawned st && _); [|done]. intros [= <-].
    apply (explained_grow pre st MainReturn (listeners st)); [done|done|].
    intros i l Hl. by left.
Qed.

Lemma explained_run schedule : ∀ pre st st',
  explained pre st → run st schedule = Some st' →
  explained (pre ++ schedule) st'.
Proof.
  induction schedule as [|lb rest IH]; intros pre st st' Hex; cbn.
  - intros [= <-]. by rewrite app_nil_r.
  - destruct (step st lb) as [st1|] eqn:Hs; cbn; [|done].
    intros Hrun. rewrite (assoc_L (++) pre [lb] rest : pre ++ lb :: rest = _).
    eapply IH; [|done]. by eapply explained_step.
Qed.

(** A blocked sender stays blocked over every step. *)
Lemma stuck_sender_step st i l lb st' :
  listeners st !! i = Some l → stuck_sender l → step st lb = Some st' →
  ∃ l', listeners st' !! i = Some l' ∧ stuck_sender l'
        ∧ net l' = net l ∧ addr l' = addr l.
Proof.
  intros Hl [Hlpc Hsig]. unfold step. destruct (returned st); [done|].
  assert (Hon : ∀ j enabled f st1,
    on_listener j enabled f st = Some st1 →
    (∀ l0, enabled l0 = true → stuck_sender l0 →
       stuck_sender (f l0) ∧ net (f l0) = net l0 ∧ addr (f l0) = addr l0) →
    ∃ l', listeners st1 !! i = Some l' ∧ stuck_sender l'
          ∧ net l' = net l ∧ addr l' = addr l).
  { intros j enabled f st1 (lj & Hlj & He & ->)%on_listener_Some Hf.
    cbn [set_listeners listeners].
    destruct (decide (j = i)) as [->|Hne].
    - rewrite list_lookup_insert_eq by (by eapply lookup_lt_Some).
      simplify_eq. exists (f l). split; [done|]. by apply Hf.
    - rewrite list_lookup_insert_ne by done. by exists l. }
  unfold stuck_sender, signalled in *.
  destruct lb as [|j|j|j|j|j|j|s|j err|j|].
  - destruct (listenProtocols st !! _); cbn; [|done]. intros [= <-].
    exists l. split; [|done]. cbn. by apply lookup_app_l_Some.
  - intros H. eapply Hon; [done|]. intros l0 He%bool_decide_eq_true [_ Hs].
    by rewrite He in Hs.
  - intros H. eapply Hon; [done|]. intros l0 He%bool_decide_eq_true [_ Hs].
    by rewrite He in Hs.
  - intros H. eapply Hon; [done|]. intros l0 He%bool_decide_eq_true [_ Hs].
    by rewrite He in Hs.
  - intros H. eapply Hon; [done|]. intros l0 He%bool_decide_eq_true [Hf _].
    by rewrite He in Hf.
  - intros H. eapply Hon; [done|]. intros l0 He%bool_decide_eq_true [Hf _].
    by rewrite He in Hf.
  - intros H. eapply Hon; [done|].
    intros l0 [_ He%bool_decide_eq_true]%andb_true_iff [_ Hs].
    by rewrite He in Hs.
  - destruct (notify_in_force st); [|done].
    intros [= <-]. cbn. rewrite list_lookup_fmap, Hl. cbn.
    exists (deliver s l). split; [done|]. unfold deliver.
    case_bool_decide as Hw; [by rewrite Hw in Hsig|done].
  - intros H. eapply Hon; [done|]. intros l0 He [Hf _]. cbn. done.
  - destruct (all_spawned st && _); [|done].
    destruct (on_listener _ _ _ _) as [st1|] eqn:Hst1; cbn; [|done].
    intros [= <-]. cbn [count_received listeners].
    eapply Hon; [done|]. intros l0 He [Hf _]. cbn. done.
  - destruct (all_spawned st && _); [|done]. intros [= <-]. by exists l.
Qed.

(** How one step changes what listener [i] has: a signal for its serve
    loop comes from the operating system or from its own goroutine, and
    its goroutine wants to send only after its own [ListenAndServe]
    failed. *)
Lemma listener_step st i l lb st' :
  listeners st !! i = Some l → step st lb = Some st' →
  ∃ l', listeners st' !! i = Some l'
    ∧ (signalled l' = true →
         signalled l = true ∨ (∃ s, lb = OsSignal s) ∨ lb = SelfTerm i)
    ∧ (lpc l' = LFailed → lpc l = LFailed ∨ lb = ListenError i).
Proof.
  intros Hl. unfold step. destruct (returned st); [done|].
  assert (Hon : ∀ j enabled f st1 (lbj : nat → Label),
    on_listener j enabled f st = Some st1 →
    (∀ l0, enabled l0 = true →
       (signalled (f l0) = true →
          signalled l0 = true ∨ lbj j = SelfTerm j)
       ∧ (lpc (f l0) = LFailed → lpc l0 = LFailed ∨ lbj j = ListenError j)) →
    ∃ l', listeners st1 !! i = Some l'
      ∧ (signalled l' = true →
           signalled l = true ∨ (∃ s, lbj j = OsSignal s) ∨ lbj j = SelfTerm i)
      ∧ (lpc l' = LFailed → lpc l = LFailed ∨ lbj j = ListenError i)).
  { intros j enabled f st1 lbj (lj & Hlj & He & ->)%on_listener_Some Hf.
    cbn [set_listeners listeners].
    destruct (decide (j = i)) as [->|Hne].
    - rewrite list_lookup_insert_eq by (by eapply lookup_lt_Some).
      simplify_eq. exists (f l). split; [done|].
      destruct (Hf l He) as [H1 H2]. split; [|done].
      intros [?|?]%H1; auto.
    - rewrite list_lookup_insert_ne by done. exists l. auto. }
  destruct lb as [|j|j|j|j|j|j|s|j err|j|].
  - destruct (listenProtocols st !! _); cbn; [|done]. intros [= <-].
    exists l. split; [|auto]. cbn. by apply lookup_app_l_Some.
  - intros H. apply (Hon j _ _ st' ServeStart H).
    intros l0 He. unfold signalled. cbn. split; intros; try discriminate; auto.
  - intros H. apply (Hon j _ _ st' ServeGo H).
    intros l0 He. unfold signalled. cbn. split; intros; discriminate.
  - intros H. apply (Hon j _ _ st' ServeWait H).
    intros l0 He. unfold signalled. cbn. split; intros; try discriminate; auto.
  - intros H. apply (Hon j _ _ st' ListenError H).
    intros l0 He. unfold signalled. cbn. split; intros; auto.
  - intros H. apply (Hon j _ _ st' ListenReturn H).
    intros l0 He. unfold signalled. cbn. split; intros; try discriminate; auto.
  - intros H. apply (Hon j _ _ st' SelfTerm H).
    intros l0 He. unfold signalled. cbn. split; intros; try discriminate; auto.
  - destruct (notify_in_force st); [|done].
    intros [= <-]. cbn. rewrite list_lookup_fmap, Hl. cbn.
    exists (deliver s l). split; [done|]. split; [eauto|].
    unfold deliver. case_bool_decide; auto.
  - intros H. apply (Hon j _ _ st' (λ j, Shutdown j err) H).
    intros l0 He. unfold signalled. cbn. split; [|auto].
    destruct (spc l0); try done; auto.
  - destruct (all_spawned st && _); [|done].
    destruct (on_listener _ _ _ _) as [st1|] eqn:Hst1; cbn; [|done].
    intros [= <-]. cbn [count_received listeners].
    apply (Hon j _ _ st1 Done Hst1).
    intros l0 He%bool_decide_eq_true. unfold signalled. cbn.
    rewrite He. auto.
  - destruct (all_spawned st && _); [|done]. intros [= <-].
    exists l. auto.
Qed.

(** The rendezvous of a goroutine with its serve loop needs the failed
    [ListenAndServe] of that goroutine. *)
Lemma step_SelfTerm_failed st i l st' :
  listeners st !! i = Some l → step st (SelfTerm i) = Some st' →
  lpc l = LFailed.
Proof.
  intros Hl. unfold step. destruct (returned st); [done|].
  intros (l0 & Hl0 & He & _)%on_listener_Some. simplify_eq.
  apply andb_true_iff in He as [He _]. by apply bool_decide_eq_true in He.
Qed.

(** Signals are not kept for later: a serve loop without a signal has
    none as long as the operating system sends none and its goroutine
    hands it none. *)
Lemma unsignalled_run rest : ∀ st st' i l,
  listeners st !! i = Some l → signalled l = false →
  run st rest = Some st' →
  ¬ signal_sent rest → SelfTerm i ∉ rest →
  ∃ l', listeners st' !! i = Some l' ∧ signalled l' = false.
Proof.
  induction rest as [|lb rest IH]; intros st st' i l Hl Hsig; cbn [run].
  - intros [= <-] _ _. by exists l.
  - destruct (step st lb) as [st1|] eqn:Hs; cbn [mbind option_bind]; [|done].
    intros Hrun Hns Hnt.
    destruct (listener_step st i l lb st1 Hl Hs) as (l1 & Hl1 & Hs1 & _).
    eapply (IH st1 st' i l1); [done| |done| |].
    + destruct (signalled l1) eqn:E; [|done].
      destruct (Hs1 eq_refl) as [?|[[s ->]| ->]]; [congruence| |].
      * destruct Hns. exists s. by left.
      * destruct Hnt. by left.
    + intros [s Hin]. apply Hns. exists s. by right.
    + intros Hin. apply Hnt. by right.
Qed.

(** A goroutine hands SIGTERM to its serve loop only after its
    [ListenAndServe] has failed. *)
Lemma self_term_needs_failure rest : ∀ st st' i l,
  listeners st !! i = Some l → lpc l ≠ LFailed →
  run st rest = Some st' →
  ListenError i ∉ rest → SelfTerm i ∉ rest.
Proof.
  induction rest as [|lb rest IH]; intros st st' i l Hl Hlpc; cbn [run].
  - intros _ _ ?%elem_of_nil. done.
  - destruct (step st lb) as [st1|] eqn:Hs; cbn [mbind option_bind]; [|done].
    intros Hrun Hne [<-|Hin]%elem_of_cons.
    + by apply Hlpc, (step_SelfTerm_failed st i l st1).
    + destruct (listener_step st i l lb st1 Hl Hs) as (l1 & Hl1 & _ & Hf1).
      eapply (IH st1 st' i l1); [done| |done| |done].
      * intros [?| ->]%Hf1; [done|]. apply Hne. by left.
      * intros ?. apply Hne. by right.
Qed.

End Traces.

Section Runs.

Context {Options : Type}.
Variables (opt : Options) (protocols : list string) (address : string).
Implicit Types st : State Options.

(** X1.  The process can be shut down from every state it can reach:
    when [main] has not returned, the schedule [shutdown_schedule s st]
    runs from there: the spawn loop finishes, every serve loop reaches its
    receive, one signal [s] arrives, every listener calls [Shutdown] and
    reports, and [main] returns with every protocol's listener over (with
    no protocol there is no serve loop, and [main] returns without a
    signal).  No state of the process is a deadlock. *)
Theorem shutdown_is_always_possible schedule st s :
  run (init opt protocols address) schedule = Some st →
  returned st = false →
  ∃ st', run st (shutdown_schedule s st) = Some st'
    ∧ returned st' = true
    ∧ run (init opt protocols address) (schedule ++ shutdown_schedule s st)
      = Some st'
    ∧ ∀ i protocol, protocols !! i = Some protocol →
        ∃ l, listeners st' !! i = Some l ∧ net l = protocol
             ∧ spc l = SFinished ∧ shutdowns l = 1%nat.
Proof.
  intros Hrun Hret.
  assert (Hinv : invariant opt protocols address st)
    by (eapply invariant_run; [apply invariant_init|done]).
  assert (Hle : (length (listeners st) ≤ length (listenProtocols st))%nat).
  { destruct Hinv as [_ -> _ ? _ _ _]. done. }
  assert (Hall : length (all_listeners st) = length (listenProtocols st)).
  { unfold all_listeners. rewrite length_app, length_fmap, length_drop. lia. }
  assert (∃ st', run st (shutdown_schedule s st) = Some st'
                 ∧ returned st' = true) as (st' & Hrun' & Hret').
  { unfold shutdown_schedule. rewrite run_app.
    rewrite run_spawn_rest by (done || lia). cbn [mbind option_bind].
    set (st1 := set_listeners (all_listeners st) st).
    rewrite run_app.
    destruct (run_reach_receive_from (length (all_listeners st)) st1 0)
      as (ls & Hrun1 & Hlen1 & _ & Hls); [done|done|].
    rewrite drop_0 in Hrun1.
    change (listeners st1) with (all_listeners st) in Hrun1, Hls.
    rewrite Hrun1. cbn [mbind option_bind].
    assert (ls = at_receive <$> all_listeners st) as ->.
    { apply list_eq. intros j. rewrite list_lookup_fmap.
      apply Hls. lia. }
    set (st2 := set_listeners (at_receive <$> all_listeners st) st1).
    rewrite run_app, <- (the_signal_fmap s at_receive).
    change (at_receive <$> all_listeners st) with (listeners st2) at 1.
    rewrite run_the_signal; [|done|]; last first.
    { intros i l. unfold st2. cbn [set_listeners listeners].
      rewrite list_lookup_fmap.
      destruct (all_listeners st !! i) as [l0|]; [|done].
      intros [= <-]. apply spc_at_receive. }
    cbn [mbind option_bind].
    set (st3 := set_listeners _ _).
    apply (run_wind_down st3).
    - unfold st3, st2, st1. cbn [set_listeners received listeners].
      rewrite !count_finished_fmap, count_finished_all_listeners.
      + by destruct Hinv.
      + apply finished_at_receive.
      + intros l. unfold deliver, finished.
        destruct (bool_decide (spc l = SWaiting)) eqn:Hw; [|done].
        apply bool_decide_eq_true in Hw. cbn. rewrite Hw.
        by rewrite !bool_decide_eq_false_2.
    - done.
    - unfold all_spawned, st3, st2, st1.
      cbn [set_listeners listeners listenProtocols].
      rewrite !length_fmap. by apply Nat.eqb_eq.
    - unfold st3, st2. cbn [set_listeners listeners]. intros i l.
      rewrite !list_lookup_fmap.
      destruct (all_listeners st !! i) as [l0|]; [|done].
      intros [= <-]. apply signalled_deliver_at_receive. }
  exists st'. split; [done|]. split; [done|]. split.
  - by rewrite run_app, Hrun.
  - eapply returned_all_finished; [|done].
    eapply invariant_run; done.
Qed.

(** Without a signal of the operating system, [main] has returned only
    if the [ListenAndServe] of protocol [i] failed and its goroutine sent
    SIGTERM. *)
Lemma returned_without_signal schedule st i :
  run (init opt protocols address) schedule = Some st →
  returned st = true → ¬ signal_sent schedule →
  (i < length protocols)%nat →
  ListenError i ∈ schedule ∧ SelfTerm i ∈ schedule.
Proof.
  intros Hrun Hret Hns Hi.
  assert (Hinv : invariant opt protocols address st)
    by (eapply invariant_run; [apply invariant_init|done]).
  assert (Hex : explained schedule st).
  { apply (explained_run schedule [] (init opt protocols address)); [|done].
    split; [|by intros j ?%elem_of_nil]. by intros j l ?. }
  destruct (lookup_lt_is_Some_2 protocols i Hi) as [p Hp].
  destruct (returned_all_finished opt protocols address st Hinv Hret)
    as (_ & _ & Hall).
  destruct (Hall i p Hp) as (l & Hl & _ & Hspc & _).
  destruct Hex as [H1 H2]. destruct (H1 i l Hl) as [Hsig _].
  destruct Hsig as [?|Hself]; [unfold signalled; by rewrite Hspc|done|].
  split; [by apply H2|done].
Qed.

(** X2.  [main] never returns on its own: when it has returned, the
    schedule holds a signal of the operating system, or the
    [ListenAndServe] of every protocol failed and its goroutine sent
    SIGTERM to its serve loop; and a serve loop that has a signal in any
    state got it in one of these two ways. *)
Theorem main_returns_only_after_signal_or_failures schedule st :
  run (init opt protocols address) schedule = Some st →
  (returned st = true →
     signal_sent schedule
     ∨ ∀ i, (i < length protocols)%nat →
         ListenError i ∈ schedule ∧ SelfTerm i ∈ schedule)
  ∧ (∀ i l, listeners st !! i = Some l → signalled l = true →
       signal_sent schedule
       ∨ (ListenError i ∈ schedule ∧ SelfTerm i ∈ schedule)).
Proof.
  intros Hrun. split.
  - intros Hret.
    destruct (signal_sent_dec schedule) as [Hs|Hns]; [by left|]. right.
    intros i Hi. by eapply returned_without_signal.
  - intros i l Hl Hsig.
    assert (Hex : explained schedule st).
    { apply (explained_run schedule [] (init opt protocols address));
        [|done].
      split; [|by intros j ?%elem_of_nil]. by intros j l' ?. }
    destruct Hex as [H1 H2]. destruct (H1 i l Hl) as [Hs _].
    destruct (Hs Hsig) as [?|Hself]; [by left|]. right.
    split; [by apply H2|done].
Qed.

(** X3.  A goroutine whose [ListenAndServe] failed after its serve loop
    got a signal stays blocked in [sig <- syscall.SIGTERM] whatever
    happens next: nothing receives from [sig] any more.  It keeps its
    protocol and address, and its serve loop goes on without it. *)
Theorem blocked_sender_stays_blocked schedule st st' i l :
  listeners st !! i = Some l → stuck_sender l →
  run st schedule = Some st' →
  ∃ l', listeners st' !! i = Some l' ∧ stuck_sender l'
        ∧ net l' = net l ∧ addr l' = addr l.
Proof.
  revert st l. induction schedule as [|lb rest IH]; intros st l Hl Hstuck.
  - intros [= <-]. by exists l.
  - cbn [run]. destruct (step st lb) as [st1|] eqn:Hs;
      cbn [mbind option_bind]; [|done].
    destruct (stuck_sender_step st i l lb st1 Hl Hstuck Hs)
      as (l1 & Hl1 & Hstuck1 & Hnet & Haddr).
    intros Hrun. destruct (IH st1 l1 Hl1 Hstuck1 Hrun)
      as (l' & ? & ? & ? & ?).
    exists l'. split_and!; try done; congruence.
Qed.

(** A serve loop that has no signal gets none, calls no [Shutdown] and
    keeps [main] from returning, as long as the operating system sends no
    signal and its own goroutine hands it none. *)
Lemma unsignalled_never_shuts_down schedule st rest st2 i l :
  run (init opt protocols address) schedule = Some st →
  listeners st !! i = Some l → signalled l = false →
  run st rest = Some st2 →
  ¬ signal_sent rest → SelfTerm i ∉ rest →
  returned st2 = false
  ∧ ∃ l2, listeners st2 !! i = Some l2 ∧ signalled l2 = false
          ∧ shutdowns l2 = 0%nat.
Proof.
  intros Hrun Hl Hsig Hrest Hns Hnt.
  assert (Hinv : invariant opt protocols address st2).
  { eapply invariant_run; [|done].
    eapply invariant_run; [apply invariant_init|done]. }
  destruct (unsignalled_run rest st st2 i l Hl Hsig Hrest Hns Hnt)
    as (l2 & Hl2 & Hsig2).
  destruct (inv_listener _ _ _ _ Hinv i l2 Hl2) as (Hp & _ & Hok).
  split.
  - destruct (returned st2) eqn:Hret; [|done].
    destruct (returned_all_finished opt protocols address st2 Hinv Hret)
      as (_ & _ & Hall).
    destruct (Hall i (net l2) Hp) as (l' & Hl' & _ & Hspc & _).
    simplify_eq. unfold signalled in Hsig2. by rewrite Hspc in Hsig2.
  - exists l2. split; [done|]. split; [done|].
    unfold listener_ok in Hok. unfold signalled in Hsig2.
    by destruct (spc l2); destruct Hok.
Qed.

(** X4.  What a signal of the operating system does in a state of the
    process in which [main] has not returned.  It ends the process exactly
    when no serve call has run [signal.Notify] yet.  Otherwise the serve
    loops that are blocked in [<-sig] take it and no other listener
    changes; and a serve loop that is not there yet, and has no signal,
    never gets this one: as long as no further signal arrives and its own
    goroutine hands it none, it has no signal, [Shutdown] is not called on
    its server and [main] does not return. *)
Theorem os_signal_reaches_waiting_loops_only schedule st s :
  run (init opt protocols address) schedule = Some st →
  returned st = false →
  (step st (OsSignal s) = None ↔
   ∀ i l, listeners st !! i = Some l → spc l = SEntry)
  ∧ ∀ st1, step st (OsSignal s) = Some st1 →
      (∀ i l, listeners st !! i = Some l → spc l = SWaiting →
         listeners st1 !! i = Some (set_spc (SGotSignal s) l))
      ∧ (∀ i l, listeners st !! i = Some l → spc l ≠ SWaiting →
           listeners st1 !! i = Some l
           ∧ (signalled l = false →
              ∀ rest st2, run st1 rest = Some st2 →
                ¬ signal_sent rest → SelfTerm i ∉ rest →
                returned st2 = false
                ∧ ∃ l2, listeners st2 !! i = Some l2
                        ∧ signalled l2 = false ∧ shutdowns l2 = 0%nat)).
Proof.
  intros Hrun Hret. split.
  - rewrite <- notify_in_force_false. unfold step. rewrite Hret.
    by destruct (notify_in_force st).
  - intros st1 Hstep.
    assert (Hrun1 : run (init opt protocols address) (schedule ++ [OsSignal s])
                    = Some st1).
    { rewrite run_app, Hrun. cbn. by rewrite Hstep. }
    apply step_OsSignal in Hstep as (_ & _ & ->).
    cbn [set_listeners listeners] in *. split.
    + intros i l Hl Hspc. rewrite list_lookup_fmap, Hl. cbn.
      unfold deliver. by rewrite bool_decide_eq_true_2.
    + intros i l Hl Hspc.
      assert (Hl1 : (deliver s <$> listeners st) !! i = Some l).
      { rewrite list_lookup_fmap, Hl. cbn.
        unfold deliver. by rewrite bool_decide_eq_false_2. }
      split; [done|]. intros Hsig rest st2 Hrest Hns Hnt.
      by eapply (unsignalled_never_shuts_down (schedule ++ [OsSignal s])).
Qed.

(** X5.  Every goroutine serves the protocol of its own [go] statement:
    in every state of the process the listener at position [i] was
    started for the protocol at position [i] of [listenProtocols], on the
    listen address; there are never more listeners than protocols; and a
    [ListenAndServe] goroutine exists only for a serve call that has
    registered its signal channel and built its server. *)
Theorem each_goroutine_serves_its_own_protocol schedule st :
  run (init opt protocols address) schedule = Some st →
  (length (listeners st) ≤ length protocols)%nat
  ∧ ∀ i l, listeners st !! i = Some l →
      protocols !! i = Some (net l) ∧ addr l = address
      ∧ (lpc l ≠ LNone ↔ spc l ≠ SEntry ∧ spc l ≠ SNotified)
      ∧ (shutdowns l ≤ 1)%nat.
Proof.
  intros Hrun.
  assert (Hinv : invariant opt protocols address st)
    by (eapply invariant_run; [apply invariant_init|done]).
  destruct Hinv as [_ _ _ Hlen Hls _ _]. split; [done|].
  intros i l Hl. destruct (Hls i l Hl) as (Hnet & Haddr & Hok).
  split; [done|]. split; [done|]. unfold listener_ok in Hok.
  destruct (spc l); destruct Hok as [H1 H2];
    (split; [intuition congruence|lia]).
Qed.

(** X6.  [main] counts every goroutine that is over exactly once: in
    every state the completions it has received from [servers] are as
    many as the [Done] steps of the schedule and as many as the listeners
    that are over, never more than there are listeners. *)
Theorem main_counts_each_finished_goroutine_once schedule st :
  run (init opt protocols address) schedule = Some st →
  received st = notifications schedule
  ∧ received st = count_finished (listeners st)
  ∧ (received st ≤ length (listeners st))%nat
  ∧ (received st = length protocols →
     ∀ i l, listeners st !! i = Some l → spc l = SFinished).
Proof.
  intros Hrun.
  assert (Hinv : invariant opt protocols address st)
    by (eapply invariant_run; [apply invariant_init|done]).
  apply run_notifications in Hrun. cbn in Hrun.
  destruct Hinv as [_ _ _ Hlen _ Hrec _].
  pose proof (count_finished_le (listeners st)) as Hle.
  split; [done|]. split; [done|]. split; [lia|].
  intros Hfull i l Hl.
  assert (Hf : finished l = true).
  { eapply count_finished_all; [|done]. lia. }
  by apply bool_decide_eq_true in Hf.
Qed.

End Runs.

(** C5.  The claim fails on the run [signal_while_starting] of the tcp
    listener: SIGINT arrives after [serve] has run [signal.Notify] and
    started [ListenAndServe], and before it blocks in [<-sig].  The send
    on the unbuffered channel is dropped.  Afterwards the listener serves,
    its serve loop waits, and the steps of the shutdown are not enabled;
    as long as no further signal arrives and [ListenAndServe] does not
    fail, the serve loop has no signal, [Shutdown] is not called and
    [main] does not return. *)
Theorem signal_before_the_receive_is_lost :
  ∃ st : State unit,
    run (init tt ["tcp"] ":5300") Scenario.signal_while_starting = Some st
    ∧ run (init tt ["tcp"] ":5300")
        (Scenario.listening_not_waiting ++ [ServeWait 0]) = Some st
    ∧ listeners st
      = [{| net := "tcp"; addr := ":5300"; spc := SWaiting;
            lpc := LListening; shutdowns := 0 |}]
    ∧ returned st = false
    ∧ (∀ err, step st (Shutdown 0 err) = None)
    ∧ step st (Done 0) = None
    ∧ step st MainReturn = None
    ∧ ∀ rest st', run st rest = Some st' →
        ¬ signal_sent rest → ListenError 0 ∉ rest →
        returned st' = false
        ∧ ∃ l, listeners st' !! 0%nat = Some l ∧ signalled l = false
               ∧ shutdowns l = 0%nat.
Proof.
  eexists. split; [vm_compute; reflexivity|].
  split; [reflexivity|]. split; [reflexivity|]. split; [reflexivity|].
  split; [by intros []|]. split; [reflexivity|]. split; [reflexivity|].
  match goal with
  | |- ∀ rest st', run ?st rest = _ → _ =>
      assert (Hrun : run (init tt ["tcp"] ":5300")
                       Scenario.signal_while_starting = Some st)
        by (vm_compute; reflexivity);
      intros rest st' Hrest Hns Hne;
      eapply (unsignalled_never_shuts_down tt ["tcp"] ":5300"
                Scenario.signal_while_starting st rest st' 0);
        [exact Hrun|reflexivity|reflexivity|exact Hrest|exact Hns|];
      eapply (self_term_needs_failure rest st st' 0);
        [reflexivity| |exact Hrest|exact Hne]; done
  end.
Qed.

End ServeMore.

(** * More facts about the bootstrap *)

Section BootstrapMore.

Context {IP Endpoint Provider Err : Type}.
Variable ParseIP : string → option IP.
Variable ParseEndpoint : string → Z → result Err Endpoint.
Variable NewGDNSProvider :
  string → @GDNSOptions IP Endpoint → result Err Provider.

Abbreviation Ev' := (@Event IP Endpoint Provider Err).
Abbreviation run' := (run_main ParseIP ParseEndpoint NewGDNSProvider).
Abbreviation opts' := (options_of ParseIP ParseEndpoint).

Lemma protocols_of_cons (c : Context) :
  protocols_of c ≠ [] ↔ flag_tcp c = true ∨ flag_udp c = true.
Proof.
  unfold protocols_of. destruct (flag_tcp c), (flag_udp c); cbn;
    intuition congruence.
Qed.

(** The variables at the end of a run. *)
Lemma run_main_variables (c : Context) :
  listenProtocols (run' c).2 = protocols_of c
  ∧ listenAddress (run' c).2 = flag_listen c
  ∧ gdnsEndPT (run' c).2 = flag_endpoint c
  ∧ (protocols_of c ≠ [] → gdnsOPT (run' c).2 = opts' c).
Proof.
  rewrite run_main_cases. destruct (protocols_of c) as [|x xs] eqn:Hp.
  - done.
  - destruct (NewGDNSProvider _ _); cbn; by rewrite Hp.
Qed.

(** X7.  A run of [main] ends in one of three ways, decided by the
    transport flags and the provider construction alone: exit status 0
    iff neither [tcp] nor [udp] is given; exit status 1 iff one is given
    and [NewGDNSProvider] returns an error; and it gets to its listeners
    iff one is given and the provider is constructed.  Listeners are
    started in the last case only. *)
Theorem main_ends_in_one_of_three_ways (c : Context) :
  ((run' c).1 = Exit 0 ↔ flag_tcp c = false ∧ flag_udp c = false)
  ∧ ((run' c).1 = Exit 1 ↔
       (flag_tcp c = true ∨ flag_udp c = true)
       ∧ ∃ err, NewGDNSProvider (gdnsEndPT (run' c).2) (gdnsOPT (run' c).2)
                = Error err)
  ∧ ((run' c).1 = Return tt ↔
       (flag_tcp c = true ∨ flag_udp c = true)
       ∧ ∃ provider,
           NewGDNSProvider (gdnsEndPT (run' c).2) (gdnsOPT (run' c).2)
           = Ok provider)
  ∧ (started (run' c).2 ≠ [] ↔ (run' c).1 = Return tt)
  ∧ ((run' c).1 = Exit 0 ∨ (run' c).1 = Exit 1 ∨ (run' c).1 = Return tt).
Proof.
  destruct (run_main_variables c) as (_ & _ & Hep & Hopt).
  rewrite Hep. rewrite <- protocols_of_cons, <- protocols_of_nil.
  revert Hopt. rewrite run_main_cases.
  destruct (protocols_of c) as [|x xs] eqn:Hp.
  - intros _. cbn [fst snd]. split_and!.
    + by split.
    + split; [done|by intros [? _]].
    + split; [done|by intros [? _]].
    + split; [intros H; by destruct H|done].
    + auto.
  - intros Hopt. rewrite Hopt by done.
    destruct (NewGDNSProvider _ _) as [provider|err] eqn:Hnew; cbn [fst snd];
      rewrite started_configured; cbn [app];
      rewrite !filter_cons_False by (cbn; done);
      rewrite ?started_go_statements.
    + split_and!.
      * by split.
      * split; [done|]. by intros [_ [err [=]]].
      * split; [by eauto|done].
      * split; [done|]. intros _. unfold go_statements. by rewrite Hp.
      * auto.
    + split_and!.
      * by split.
      * split; [by eauto|done].
      * split; [done|]. by intros [_ [provider [=]]].
      * split; [intros H; by destruct H|done].
      * auto.
Qed.

Lemma length_omap_complement {A B C} (f : A → option B) (g : A → option C)
    (l : list A) :
  (∀ x, is_Some (f x) ↔ g x = None) →
  (length (omap f l) + length (omap g l) = length l)%nat.
Proof.
  intros Hfg. induction l as [|x l IH]; [done|]. cbn.
  destruct (f x) as [y|] eqn:Hf, (g x) as [z|] eqn:Hg; cbn; try lia.
  - assert (is_Some (f x)) as Hs%Hfg by (by rewrite Hf). congruence.
  - assert (is_Some (f x)) as [y Hy] by (by apply Hfg). congruence.
Qed.

Lemma filter_none_omap {A B} (f : A → option B) (l : list A) :
  (∀ x, x ∈ l → f x = None) → omap f l = [].
Proof.
  induction l as [|x l IH]; intros Hl; [done|]. cbn.
  rewrite (Hl x) by left. apply IH. intros y Hy. apply Hl. by right.
Qed.

Lemma omap_nil_inv {A B} (f : A → option B) (l : list A) :
  omap f l = [] → ∀ x, x ∈ l → f x = None.
Proof.
  induction l as [|x l IH]; intros Hnil y Hy; [by apply elem_of_nil in Hy|].
  cbn in Hnil. destruct (f x) eqn:Hx; [done|].
  apply elem_of_cons in Hy as [->|Hy]; [done|by apply IH].
Qed.

Lemma filter_all {A} (P : A → Prop) `{∀ x, Decision (P x)} (l : list A) :
  (∀ x, x ∈ l → P x) → filter P l = l.
Proof.
  induction l as [|x l IH]; intros Hl; [done|].
  rewrite filter_cons_True by (apply Hl; left).
  f_equal. apply IH. intros y Hy. apply Hl. by right.
Qed.

(** The error lines in the log of [Action]. *)
Lemma error_lines_action_events (c : Context) (es : list Ev') :
  (∀ e, e ∈ es → ∀ lvl m, e ≠ Log lvl m) →
  ip_error_lines (action_events ParseIP ParseEndpoint c ++ es)
  = ip_errors ParseIP (flag_endpoint_ips c)
  ∧ server_error_lines (action_events ParseIP ParseEndpoint c ++ es)
    = server_errors ParseEndpoint (flag_dns_servers c).
Proof.
  intros Hes. unfold ip_error_lines, server_error_lines, action_events.
  rewrite !filter_app.
  assert (Hip : ∀ e : Ev', e ∈ ip_errors ParseIP (flag_endpoint_ips c) →
            is_ip_error e = true ∧ is_server_error e = false).
  { intros e (eip & _ & H)%list_elem_of_omap.
    destruct (ParseIP eip); by simplify_eq. }
  assert (Hdns : ∀ e : Ev',
            e ∈ server_errors ParseEndpoint (flag_dns_servers c) →
            is_ip_error e = false ∧ is_server_error e = true).
  { intros e (dns & _ & H)%list_elem_of_omap.
    destruct (ParseEndpoint dns 53); by simplify_eq. }
  assert (Hrest : ∀ e : Ev', e ∈ es →
            is_ip_error e = false ∧ is_server_error e = false).
  { intros e He. specialize (Hes e He).
    destruct e as [lvl m| | | | |]; try done. by destruct (Hes lvl m). }
  split.
  - rewrite (filter_all _ (ip_errors _ _)) by (intros e He; by apply Hip).
    rewrite (filter_none _ (server_errors _ _))
      by (intros e [He _]%Hdns; by rewrite He).
    rewrite (filter_none _ es) by (intros e [He _]%Hrest; by rewrite He).
    rewrite !filter_cons_False by (cbn; done). cbn.
    by rewrite !app_nil_r.
  - rewrite (filter_none _ (ip_errors _ _))
      by (intros e [_ He]%Hip; by rewrite He).
    rewrite (filter_all _ (server_errors _ _))
      by (intros e He; by apply Hdns).
    rewrite (filter_none _ es) by (intros e [_ He]%Hrest; by rewrite He).
    rewrite !filter_cons_False by (cbn; done). cbn.
    by rewrite !app_nil_r.
Qed.

(** X8.  No static address is lost silently: when the provider is
    constructed, every [endpoint-ips] entry is either among the
    [EndpointIPs] of its options or has its error line in the log, and
    likewise every [dns-servers] entry; the numbers add up, and no error
    line is logged iff every entry parses. *)
Theorem every_static_address_is_kept_or_logged (c : Context) ep opt :
  NewProvider ep opt ∈ events (run' c).2 →
  (length (EndpointIPs opt) + length (ip_error_lines (events (run' c).2))
   = length (flag_endpoint_ips c))%nat
  ∧ (length (DNSServers opt) + length (server_error_lines (events (run' c).2))
     = length (flag_dns_servers c))%nat
  ∧ (ip_error_lines (events (run' c).2) = [] ↔
     ∀ eip, eip ∈ flag_endpoint_ips c → is_Some (ParseIP eip))
  ∧ (server_error_lines (events (run' c).2) = [] ↔
     ∀ dns, dns ∈ flag_dns_servers c →
       ∃ d, ParseEndpoint dns 53 = Ok d).
Proof.
  intros (Hp & -> & ->)%new_provider_event.
  assert (Hlines : ip_error_lines (events (run' c).2)
                   = ip_errors ParseIP (flag_endpoint_ips c)
                   ∧ server_error_lines (events (run' c).2)
                     = server_errors ParseEndpoint (flag_dns_servers c)).
  { rewrite run_main_cases. destruct (protocols_of c) as [|x xs]; [done|].
    destruct (NewGDNSProvider _ _) as [provider|err]; cbn [snd configured events];
      apply error_lines_action_events; intros e He lvl m ->;
      rewrite ?elem_of_app, ?elem_of_cons, ?elem_of_nil in He;
      unfold go_statements in He; rewrite ?list_elem_of_fmap in He;
      intuition (try done); destruct H as (? & ? & ?); done. }
  destruct Hlines as [-> ->]. cbn [options_of EndpointIPs DNSServers].
  unfold parsed_ips, parsed_servers, ip_errors, server_errors.
  split_and!.
  - apply length_omap_complement. intros eip.
    destruct (ParseIP eip); split; try done; try (by intros [? ?]).
  - apply length_omap_complement. intros dns.
    destruct (ParseEndpoint dns 53); split; try done; try (by intros [? ?]).
  - split.
    + intros Hnil eip Hin.
      pose proof (omap_nil_inv _ _ Hnil eip Hin) as Hnone. cbn in Hnone.
      by destruct (ParseIP eip).
    + intros Hall. apply filter_none_omap. intros eip Hin.
      destruct (Hall eip Hin) as [ip ->]. done.
  - split.
    + intros Hnil dns Hin.
      pose proof (omap_nil_inv _ _ Hnil dns Hin) as Hnone. cbn in Hnone.
      destruct (ParseEndpoint dns 53); [by eauto|done].
    + intros Hall. apply filter_none_omap. intros dns Hin.
      destruct (Hall dns Hin) as [d ->]. done.
Qed.

(** X9.  The handler is registered before any listener is started: an
    event [GoServe] in the log of a run comes after the construction of
    the provider and after the one registration [HandleFunc], which is for
    the pattern ["."] and the provider just constructed; after the
    registration the log has [go] statements only. *)
Theorem handler_is_registered_before_any_listener_starts (c : Context)
    j protocol addr :
  events (run' c).2 !! j = Some (GoServe protocol addr) →
  ∃ k i provider,
    (k < i < j)%nat
    ∧ events (run' c).2 !! k
      = Some (NewProvider (gdnsEndPT (run' c).2) (gdnsOPT (run' c).2))
    ∧ NewGDNSProvider (gdnsEndPT (run' c).2) (gdnsOPT (run' c).2)
      = Ok provider
    ∧ events (run' c).2 !! i = Some (HandleFunc "." provider)
    ∧ registrations (events (run' c).2) = [HandleFunc "." provider]
    ∧ ∀ j' e, (i < j')%nat → events (run' c).2 !! j' = Some e →
        is_GoServe e = true.
Proof.
  destruct (run_main_variables c) as (_ & _ & Hep & Hopt).
  rewrite Hep. revert Hopt. rewrite run_main_cases.
  assert (Hlog : ∀ n (e : Ev'),
            action_events ParseIP ParseEndpoint c !! n = Some e →
            is_GoServe e = false ∧ is_HandleFunc e = false).
  { intros n e Hn. assert (e ∈ action_events ParseIP ParseEndpoint c) as
      (lvl & m & ->)%action_events_log by (apply list_elem_of_lookup; eauto).
    done. }
  destruct (protocols_of c) as [|x xs] eqn:Hp.
  - intros _. cbn. by destruct j.
  - intros Hopt. rewrite Hopt by done. clear Hopt.
    assert (Hnone : filter (λ e : Ev', is_HandleFunc e = true)
              (action_events ParseIP ParseEndpoint c) = []).
    { apply filter_none. by intros e (lvl & m' & ->)%action_events_log. }
    destruct (NewGDNSProvider _ _) as [provider|err] eqn:Hnew;
      cbn [snd configured events]; revert Hlog Hnone;
      generalize (action_events ParseIP ParseEndpoint c : list Ev');
      intros A Hlog Hnone.
    + intros [Hj|[Hge Hj]]%lookup_app_Some;
        [by destruct (Hlog j _ Hj)|].
      destruct (j - length A)%nat as [|[|m]] eqn:Hjn; [done|done|].
      exists (length A), (S (length A)), provider. split_and!.
      * lia.
      * lia.
      * rewrite lookup_app_r by lia. by rewrite Nat.sub_diag.
      * done.
      * rewrite lookup_app_r by lia.
        by replace (S (length A) - length A)%nat with 1%nat by lia.
      * unfold registrations. rewrite filter_app, Hnone.
        cbn [app]. rewrite filter_cons_False by (cbn; done).
        rewrite filter_cons_True by done.
        rewrite filter_none; [done|].
        unfold go_statements. by intros e (? & -> & _)%list_elem_of_fmap.
      * intros j' e Hj'. rewrite lookup_app_r by lia.
        destruct (j' - length A)%nat as [|[|m']] eqn:Hj'n; [lia|lia|].
        change (go_statements c !! m' = Some e → is_GoServe e = true).
        intros He%list_elem_of_lookup_2. unfold go_statements in He.
        by apply list_elem_of_fmap in He as (? & -> & _).
    + intros [Hj|[Hge Hj]]%lookup_app_Some;
        [by destruct (Hlog j _ Hj)|].
      by destruct (j - _)%nat as [|[|m]].
Qed.

(** X10.  The transports of a run are those of the flags, tcp before udp,
    each at most once, and nothing else; a run that gets to its listeners
    has at least one, and starts one serve call per transport in that
    order; and every listener is started on the one listen address of the
    command line. *)
Theorem transports_are_those_of_the_flags_once (c : Context) :
  NoDup (listenProtocols (run' c).2)
  ∧ (∀ x, x ∈ listenProtocols (run' c).2 ↔
          (x = "tcp" ∧ flag_tcp c = true) ∨ (x = "udp" ∧ flag_udp c = true))
  ∧ (∀ i j, listenProtocols (run' c).2 !! i = Some "tcp" →
            listenProtocols (run' c).2 !! j = Some "udp" → (i < j)%nat)
  ∧ (length (listenProtocols (run' c).2) ≤ 2)%nat
  ∧ ((run' c).1 = Return tt →
       listenProtocols (run' c).2 ≠ []
       ∧ started (run' c).2
         = (λ protocol, GoServe protocol (listenAddress (run' c).2))
             <$> listenProtocols (run' c).2)
  ∧ listenAddress (run' c).2 = flag_listen c.
Proof.
  destruct (run_main_variables c) as (Hps & Haddr & _ & _).
  rewrite Hps, Haddr. split_and!; try done.
  - unfold protocols_of. destruct (flag_tcp c), (flag_udp c); cbn;
      by apply (bool_decide_unpack _).
  - intros x. unfold protocols_of.
    destruct (flag_tcp c), (flag_udp c); cbn;
      rewrite ?elem_of_cons, ?elem_of_nil; intuition congruence.
  - intros i j. unfold protocols_of.
    destruct (flag_tcp c), (flag_udp c), i as [|[|i]], j as [|[|j]]; cbn;
      try done; intros; lia.
  - unfold protocols_of. destruct (flag_tcp c), (flag_udp c); cbn; lia.
  - rewrite run_main_cases. destruct (protocols_of c) as [|x xs] eqn:Hp;
      [done|].
    destruct (NewGDNSProvider _ _) as [provider|err]; cbn [fst snd]; [|done].
    intros _. split; [done|]. rewrite started_configured. cbn [app].
    rewrite !filter_cons_False by (cbn; done).
    rewrite started_go_statements. unfold go_statements. by rewrite Hp.
Qed.

(** X11.  A process that got through its startup does not exit on its
    own: when [main] has returned after the spawn loop of such a run, the
    schedule holds a signal of the operating system, or the
    [ListenAndServe] of every transport, and so of the first, has
    failed. *)
Theorem started_process_serves_until_signal_or_failure (c : Context)
    (schedule : list Serve.Label) (st : Serve.State GDNSOptions) :
  (run' c).1 = Return tt →
  Serve.run (spawning (run' c).2) schedule = Some st →
  Serve.returned st = true →
  Plans.signal_sent schedule
  ∨ (Serve.ListenError 0 ∈ schedule
     ∧ ∀ i, (i < length (listenProtocols (run' c).2))%nat →
         Serve.ListenError i ∈ schedule ∧ Serve.SelfTerm i ∈ schedule).
Proof.
  intros Hreturn Hrun Hret.
  assert (Hne : listenProtocols (run' c).2 ≠ []).
  { revert Hreturn. rewrite run_main_cases.
    destruct (protocols_of c) as [|x xs] eqn:Hp; [done|].
    destruct (NewGDNSProvider _ _); cbn; [|done]. by rewrite Hp. }
  destruct (ServeMore.signal_sent_dec schedule) as [Hs|Hns]; [by left|].
  right.
  assert (Hall : ∀ i, (i < length (listenProtocols (run' c).2))%nat →
            Serve.ListenError i ∈ schedule ∧ Serve.SelfTerm i ∈ schedule).
  { intros i Hi. by eapply ServeMore.returned_without_signal. }
  split; [|done]. apply Hall.
  destruct (listenProtocols (run' c).2); [done|cbn; lia].
Qed.

End BootstrapMore.

(** * The further theorems on concrete runs *)

Lemma shutdown_is_always_possible_witness :
  ∃ st, Serve.run (Serve.init tt ["tcp"; "udp"] ":5300") Sample.tcp_spawned
        = Some st
    ∧ Serve.returned st = false
    ∧ ∃ st', Serve.run st (Plans.shutdown_schedule Serve.SIGTERM st)
             = Some st'
        ∧ Serve.returned st' = true
        ∧ Serve.run (Serve.init tt ["tcp"; "udp"] ":5300")
            (Sample.tcp_spawned ++ Plans.shutdown_schedule Serve.SIGTERM st)
          = Some st'
        ∧ ∀ i protocol, ["tcp"; "udp"] !! i = Some protocol →
            ∃ l, Serve.listeners st' !! i = Some l ∧ Serve.net l = protocol
                 ∧ Serve.spc l = Serve.SFinished
                 ∧ Serve.shutdowns l = 1%nat.
Proof.
  eexists. split; [vm_compute; reflexivity|]. split; [reflexivity|].
  match goal with
  | |- ∃ st', Serve.run ?st _ = _ ∧ _ =>
      assert (Hrun : Serve.run (Serve.init tt ["tcp"; "udp"] ":5300")
                       Sample.tcp_spawned = Some st)
        by (vm_compute; reflexivity);
      exact (ServeMore.shutdown_is_always_possible
               tt ["tcp"; "udp"] ":5300" Sample.tcp_spawned st Serve.SIGTERM
               Hrun eq_refl)
  end.
Defined.

Lemma main_returns_only_after_signal_or_failures_witness :
  ∃ st, Serve.run (Serve.init tt ["tcp"; "udp"] ":5300") Sample.interrupted
        = Some st
    ∧ (Serve.returned st = true →
         Plans.signal_sent Sample.interrupted
         ∨ ∀ i, (i < length ["tcp"; "udp"])%nat →
             Serve.ListenError i ∈ Sample.interrupted
             ∧ Serve.SelfTerm i ∈ Sample.interrupted)
    ∧ (∀ i l, Serve.listeners st !! i = Some l →
         Serve.signalled l = true →
         Plans.signal_sent Sample.interrupted
         ∨ (Serve.ListenError i ∈ Sample.interrupted
            ∧ Serve.SelfTerm i ∈ Sample.interrupted)).
Proof.
  eexists. split; [vm_compute; reflexivity|].
  match goal with
  | |- (Serve.returned ?st = _ → _) ∧ _ =>
      assert (Hrun : Serve.run (Serve.init tt ["tcp"; "udp"] ":5300")
                       Sample.interrupted = Some st)
        by (vm_compute; reflexivity);
      exact (ServeMore.main_returns_only_after_signal_or_failures
               tt ["tcp"; "udp"] ":5300" Sample.interrupted st Hrun)
  end.
Defined.

Lemma blocked_sender_stays_blocked_witness :
  let l := {| Serve.net := "tcp"; Serve.addr := ":5300";
              Serve.spc := Serve.SGotSignal Serve.SIGINT;
              Serve.lpc := Serve.LFailed; Serve.shutdowns := 0 |} in
  ∃ st st',
    Serve.run (Serve.init tt ["tcp"] ":5300") Scenario.failed_then_interrupted
    = Some st
    ∧ Serve.listeners st !! 0%nat = Some l
    ∧ Plans.stuck_sender l
    ∧ Serve.run st Scenario.exit_after_shutdown = Some st'
    ∧ Serve.returned st' = true
    ∧ ∃ l', Serve.listeners st' !! 0%nat = Some l' ∧ Plans.stuck_sender l'
            ∧ Serve.net l' = Serve.net l ∧ Serve.addr l' = Serve.addr l.
Proof.
  intros l. eexists. eexists.
  split; [vm_compute; reflexivity|].
  match goal with
  | |- Serve.listeners ?st !! _ = _ ∧ _ => pose (st0 := st)
  end.
  split; [reflexivity|].
  assert (Hstuck : Plans.stuck_sender l) by (split; reflexivity).
  split; [exact Hstuck|].
  split; [vm_compute; reflexivity|].
  split; [reflexivity|].
  match goal with
  | |- ∃ l', Serve.listeners ?st' !! _ = _ ∧ _ =>
      assert (Hrun : Serve.run st0 Scenario.exit_after_shutdown = Some st')
        by (vm_compute; reflexivity);
      exact (ServeMore.blocked_sender_stays_blocked
               Scenario.exit_after_shutdown st0 st' 0 l eq_refl Hstuck Hrun)
  end.
Defined.

Lemma os_signal_reaches_waiting_loops_only_witness :
  ∃ st : Serve.State unit,
    Serve.run (Serve.init tt ["tcp"] ":5300") Scenario.listening_not_waiting
    = Some st
    ∧ Serve.returned st = false
    ∧ (Serve.step st (Serve.OsSignal Serve.SIGINT) = None ↔
       ∀ i l, Serve.listeners st !! i = Some l →
         Serve.spc l = Serve.SEntry)
    ∧ ∀ st1, Serve.step st (Serve.OsSignal Serve.SIGINT) = Some st1 →
        (∀ i l, Serve.listeners st !! i = Some l →
           Serve.spc l = Serve.SWaiting →
           Serve.listeners st1 !! i
           = Some (Serve.set_spc (Serve.SGotSignal Serve.SIGINT) l))
        ∧ (∀ i l, Serve.listeners st !! i = Some l →
             Serve.spc l ≠ Serve.SWaiting →
             Serve.listeners st1 !! i = Some l
             ∧ (Serve.signalled l = false →
                ∀ rest st2, Serve.run st1 rest = Some st2 →
                  ¬ Plans.signal_sent rest → Serve.SelfTerm i ∉ rest →
                  Serve.returned st2 = false
                  ∧ ∃ l2, Serve.listeners st2 !! i = Some l2
                          ∧ Serve.signalled l2 = false
                          ∧ Serve.shutdowns l2 = 0%nat)).
Proof.
  eexists. split; [vm_compute; reflexivity|]. split; [reflexivity|].
  match goal with
  | |- (Serve.step ?st _ = None ↔ _) ∧ _ =>
      assert (Hrun : Serve.run (Serve.init tt ["tcp"] ":5300")
                       Scenario.listening_not_waiting = Some st)
        by (vm_compute; reflexivity);
      exact (ServeMore.os_signal_reaches_waiting_loops_only
               tt ["tcp"] ":5300" Scenario.listening_not_waiting st
               Serve.SIGINT Hrun eq_refl)
  end.
Defined.

Lemma each_goroutine_serves_its_own_protocol_witness :
  ∃ st, Serve.run (Serve.init tt ["tcp"; "udp"] ":5300") Sample.tcp_spawned
        = Some st
    ∧ (length (Serve.listeners st) ≤ length ["tcp"; "udp"])%nat
    ∧ ∀ i l, Serve.listeners st !! i = Some l →
        ["tcp"; "udp"] !! i = Some (Serve.net l) ∧ Serve.addr l = ":5300"
        ∧ (Serve.lpc l ≠ Serve.LNone ↔
           Serve.spc l ≠ Serve.SEntry ∧ Serve.spc l ≠ Serve.SNotified)
        ∧ (Serve.shutdowns l ≤ 1)%nat.
Proof.
  eexists. split; [vm_compute; reflexivity|].
  match goal with
  | |- (length (Serve.listeners ?st) ≤ _)%nat ∧ _ =>
      assert (Hrun : Serve.run (Serve.init tt ["tcp"; "udp"] ":5300")
                       Sample.tcp_spawned = Some st)
        by (vm_compute; reflexivity);
      exact (ServeMore.each_goroutine_serves_its_own_protocol
               tt ["tcp"; "udp"] ":5300" Sample.tcp_spawned st Hrun)
  end.
Defined.

Lemma main_counts_each_finished_goroutine_once_witness :
  ∃ st, Serve.run (Serve.init tt ["tcp"; "udp"] ":5300") Sample.interrupted
        = Some st
    ∧ Serve.received st = Serve.notifications Sample.interrupted
    ∧ Serve.received st = Serve.count_finished (Serve.listeners st)
    ∧ (Serve.received st ≤ length (Serve.listeners st))%nat
    ∧ (Serve.received st = length ["tcp"; "udp"] →
       ∀ i l, Serve.listeners st !! i = Some l →
         Serve.spc l = Serve.SFinished).
Proof.
  eexists. split; [vm_compute; reflexivity|].
  match goal with
  | |- Serve.received ?st = _ ∧ _ =>
      assert (Hrun : Serve.run (Serve.init tt ["tcp"; "udp"] ":5300")
                       Sample.interrupted = Some st)
        by (vm_compute; reflexivity);
      exact (ServeMore.main_counts_each_finished_goroutine_once
               tt ["tcp"; "udp"] ":5300" Sample.interrupted st Hrun)
  end.
Defined.

Lemma every_static_address_is_kept_or_logged_witness :
  let c := Sample.tcp_with_bad_ip in
  let opt := options_of Sample.ParseIP Sample.ParseEndpoint c in
  NewProvider "https://dns.google.com/resolve" opt
    ∈ events (Sample.run c).2
  ∧ (length (EndpointIPs opt)
     + length (ip_error_lines (events (Sample.run c).2))
     = length (flag_endpoint_ips c))%nat
  ∧ (length (DNSServers opt)
     + length (server_error_lines (events (Sample.run c).2))
     = length (flag_dns_servers c))%nat
  ∧ (ip_error_lines (events (Sample.run c).2) = [] ↔
     ∀ eip, eip ∈ flag_endpoint_ips c → is_Some (Sample.ParseIP eip))
  ∧ (server_error_lines (events (Sample.run c).2) = [] ↔
     ∀ dns, dns ∈ flag_dns_servers c →
       ∃ d, Sample.ParseEndpoint dns 53 = Ok d).
Proof.
  intros c opt.
  assert (Hnew : NewProvider "https://dns.google.com/resolve" opt
                 ∈ events (Sample.run c).2).
  { vm_compute. repeat constructor. }
  split; [exact Hnew|].
  exact (every_static_address_is_kept_or_logged
           Sample.ParseIP Sample.ParseEndpoint Sample.NewGDNSProvider
           c _ opt Hnew).
Defined.

Lemma handler_is_registered_before_any_listener_starts_witness :
  let c := Sample.both_protocols in
  events (Sample.run c).2 !! 5%nat = Some (GoServe "udp" "127.0.0.1:53")
  ∧ ∃ k i provider,
      (k < i < 5)%nat
      ∧ events (Sample.run c).2 !! k
        = Some (NewProvider (gdnsEndPT (Sample.run c).2)
                  (gdnsOPT (Sample.run c).2))
      ∧ Sample.NewGDNSProvider (gdnsEndPT (Sample.run c).2)
          (gdnsOPT (Sample.run c).2) = Ok provider
      ∧ events (Sample.run c).2 !! i = Some (HandleFunc "." provider)
      ∧ registrations (events (Sample.run c).2) = [HandleFunc "." provider]
      ∧ ∀ j' e, (i < j')%nat → events (Sample.run c).2 !! j' = Some e →
          is_GoServe e = true.
Proof.
  intros c.
  assert (Hgo : events (Sample.run c).2 !! 5%nat
                = Some (GoServe "udp" "127.0.0.1:53"))
    by (vm_compute; reflexivity).
  split; [exact Hgo|].
  exact (handler_is_registered_before_any_listener_starts
           Sample.ParseIP Sample.ParseEndpoint Sample.NewGDNSProvider
           c 5%nat "udp" "127.0.0.1:53" Hgo).
Defined.

Lemma started_process_serves_until_signal_or_failure_witness :
  let c := Sample.both_protocols in
  ∃ st, (Sample.run c).1 = Return tt
    ∧ Serve.run (spawning (Sample.run c).2) Sample.interrupted = Some st
    ∧ Serve.returned st = true
    ∧ (Plans.signal_sent Sample.interrupted
       ∨ (Serve.ListenError 0 ∈ Sample.interrupted
          ∧ ∀ i, (i < length (listenProtocols (Sample.run c).2))%nat →
              Serve.ListenError i ∈ Sample.interrupted
              ∧ Serve.SelfTerm i ∈ Sample.interrupted)).
Proof.
  intros c.
  assert (Hreturn : (Sample.run c).1 = Return tt)
    by (vm_compute; reflexivity).
  eexists. split; [exact Hreturn|].
  split; [vm_compute; reflexivity|]. split; [reflexivity|].
  match goal with
  | |- Plans.signal_sent ?schedule ∨ _ =>
      refine (started_process_serves_until_signal_or_failure
                Sample.ParseIP Sample.ParseEndpoint Sample.NewGDNSProvider
                c schedule _ Hreturn _ _);
        [vm_compute; reflexivity|reflexivity]
  end.
Defined.
